(** * Pokedex (src/App.tsx): list fetch, enrichment and derived views

    A shallow embedding of the data layer of [src/App.tsx]:
    [getPokemonPage] (light list, worker-pool enrichment, static fallback),
    [sortItems], [filterItems], the gallery type filter of [GalleryView]
    and the previous/next computation of [DetailView].

    Conventions, and where the embedding of the host's built-ins is exact.
    - A JavaScript string is a [string] whose characters are its code
      units; the embedding covers the strings with code units below 256,
      on which [trim] and [toLowerCase] are exact.
    - A JavaScript [number] that holds an identifier is an integer [Fin z]
      or [NaN].  [Number] and [String] are exact for the safe integers
      (magnitude at most [MAX_SAFE_INTEGER] = 2^53 - 1); a text that
      denotes a fraction or an infinity has no value in this type.
      [Number_exact] tells the texts that [Number_] reads as the host
      does, [String_exact] the numbers that [String_] prints as the host
      does.
    - [Array.prototype.sort] is a stable sort; where the comparator is
      consistent all stable sorts return the same array, and [JS.sort] is
      that array.  Where it is not (a [NaN] identifier), the order is the
      host's own: [JS.sort_V8] follows V8 on arrays shorter than 64
      elements, and [sort_V8_sort] shows that it returns the array of
      [JS.sort] where the comparator is consistent.
    - Arrays are [list]s; [arr[i] = v] is stdpp's [<[i:=v]> arr]; the heap
      of array objects, where aliasing matters, is a [gmap]. *)

From Stdlib Require Import ZArith Ascii String List Permutation Sorted Lia.
From Stdlib Require Import DecimalString DecimalPos.
From stdpp Require Import base tactics option list strings gmap sorting.

Local Open Scope string_scope.
Local Open Scope list_scope.
Local Open Scope Z_scope.

(** ** JavaScript built-ins used by the program *)

Module JS.

(** *** Numbers *)

Inductive number : Type :=
| Fin (z : Z)
| NaN.

#[global] Instance number_eq_dec : EqDecision number.
Proof. solve_decision. Defined.

(** [a - b] *)
Definition sub (a b : number) : number :=
  match a, b with
  | Fin x, Fin y => Fin (x - y)
  | _, _ => NaN
  end.

(** [a * b] *)
Definition mul (a b : number) : number :=
  match a, b with
  | Fin x, Fin y => Fin (x * y)
  | _, _ => NaN
  end.

(** [a === b] on numbers: [NaN] is different from everything. *)
Definition strict_eq (a b : number) : bool :=
  match a, b with
  | Fin x, Fin y => x =? y
  | _, _ => false
  end.

(** [a <= b] on numbers: every comparison with [NaN] is false. *)
Definition le (a b : number) : bool :=
  match a, b with
  | Fin x, Fin y => x <=? y
  | _, _ => false
  end.

(** [Number.MAX_SAFE_INTEGER] *)
Definition MAX_SAFE_INTEGER : Z := 9007199254740991.

(** [String(n)]: the decimal digits, with a leading minus sign for a
    negative integer, and ["NaN"].  (Exact below 10^21, from where the
    host prints an exponent.) *)
Definition String_ (n : number) : string :=
  match n with
  | Fin z => NilZero.string_of_int (Z.to_int z)
  | NaN => "NaN"
  end.

(** [String_ n] is the text that the host prints: [n] is [NaN] or a safe
    integer. *)
Definition String_exact (n : number) : bool :=
  match n with
  | Fin z => Z.abs z <=? MAX_SAFE_INTEGER
  | NaN => true
  end.

(** *** Strings *)

(** White space and line terminators among the code units below 256:
    TAB, LF, VT, FF, CR, SP and NBSP. *)
Definition is_space (c : ascii) : bool :=
  Ascii.is_space c || (N_of_ascii c =? 160)%N.

Fixpoint trimStart (s : string) : string :=
  match s with
  | String c s' => if is_space c then trimStart s' else s
  | EmptyString => EmptyString
  end.

Fixpoint trimEnd (s : string) : string :=
  match s with
  | String c s' =>
      match trimEnd s' with
      | EmptyString => if is_space c then EmptyString else String c EmptyString
      | r => String c r
      end
  | EmptyString => EmptyString
  end.

(** [s.trim()] *)
Definition trim (s : string) : string := trimEnd (trimStart s).

(** The lower-case form of a code unit below 256: the letters A to Z and
    the capital letters of Latin-1 (U+00C0 to U+00DE without the
    multiplication sign U+00D7) move up by 32. *)
Definition lower (c : ascii) : ascii :=
  let n := N_of_ascii c in
  if ((65 <=? n) && (n <=? 90)
      || (192 <=? n) && (n <=? 222) && negb (n =? 215))%N
  then ascii_of_N (n + 32) else c.

(** [s.toLowerCase()] *)
Fixpoint toLowerCase (s : string) : string :=
  match s with
  | String c s' => String (lower c) (toLowerCase s')
  | EmptyString => EmptyString
  end.

(** [pre] is a prefix of [s]. *)
Fixpoint startsWith (s pre : string) {struct pre} : bool :=
  match pre, s with
  | EmptyString, _ => true
  | String a pre', String b s' => if Ascii.eqb a b then startsWith s' pre' else false
  | String _ _, EmptyString => false
  end.

(** [s.includes(sub)] *)
Fixpoint includes (s sub : string) : bool :=
  startsWith s sub ||
  match s with
  | String _ s' => includes s' sub
  | EmptyString => false
  end.

(** [s.split(sep)] for a one-character separator: the segments between
    the separators, empty ones included. *)
Fixpoint split (sep : ascii) (s : string) : list string :=
  match s with
  | EmptyString => [EmptyString]
  | String c s' =>
      if Ascii.eqb c sep then EmptyString :: split sep s'
      else
        match split sep s' with
        | seg :: segs => String c seg :: segs
        | [] => [String c EmptyString] (* not reached: [split] is never empty *)
        end
  end.

(** [c] does not occur in [s]. *)
Fixpoint free_of (c : ascii) (s : string) : bool :=
  match s with
  | String a s' => negb (Ascii.eqb a c) && free_of c s'
  | EmptyString => true
  end.

(** The truthiness of a string, as in [filter(Boolean)] and [a || b]. *)
Definition truthy (s : string) : bool :=
  match s with EmptyString => false | _ => true end.

(** [arr.pop()] read as an expression: the last element, or [undefined]. *)
Definition pop {A} (l : list A) : option A := last l.

(** *** Reading a number

    [Number(s)] follows the grammar of numeric strings: blanks around, then
    nothing (0), or a radix prefix with its digits, or an optional sign
    with [Infinity] or decimal digits, fraction and exponent. *)

(** The value of a digit in a base up to 16. *)
Definition digit (base : Z) (c : ascii) : option Z :=
  let n := Z.of_N (N_of_ascii c) in
  let v := if (48 <=? n) && (n <=? 57) then n - 48
           else if (97 <=? n) && (n <=? 102) then n - 87
           else if (65 <=? n) && (n <=? 70) then n - 55
           else 16 in
  if v <? base then Some v else None.

(** The digits at the front of [s]: their value after [acc], their number
    after [count], and the rest of [s]. *)
Fixpoint digits (base acc count : Z) (s : string) : Z * Z * string :=
  match s with
  | String c s' =>
      match digit base c with
      | Some v => digits base (acc * base + v) (count + 1) s'
      | None => (acc, count, s)
      end
  | EmptyString => (acc, count, s)
  end.

(** What a text denotes. *)
Inductive numeral : Type :=
| NotNumeric
| Integer (z : Z)
| Fraction
| Infinite.

(** The digits after [0x], [0o] or [0b]. *)
Definition nonDecimal (base : Z) (s : string) : numeral :=
  match digits base 0 0 s with
  | (v, n, EmptyString) => if 0 <? n then Integer v else NotNumeric
  | _ => NotNumeric
  end.

(** The exponent part, or nothing, at the end of a literal. *)
Definition exponent (s : string) : option Z :=
  match s with
  | EmptyString => Some 0
  | String c s' =>
      if Ascii.eqb c "e" || Ascii.eqb c "E" then
        let '(sign, s'') :=
          match s' with
          | String d t =>
              if Ascii.eqb d "+" then (1, t)
              else if Ascii.eqb d "-" then (-1, t)
              else (1, s')
          | EmptyString => (1, s')
          end in
        match digits 10 0 0 s'' with
        | (v, n, EmptyString) => if 0 <? n then Some (sign * v) else None
        | _ => None
        end
      else None
  end.

(** [m] times ten to the [k]. *)
Definition scaled (m k : Z) : numeral :=
  if 0 <=? k then Integer (m * 10 ^ k)
  else if m mod 10 ^ (- k) =? 0 then Integer (m / 10 ^ (- k))
  else Fraction.

(** A decimal literal without sign. *)
Definition unsignedDecimal (s : string) : numeral :=
  if String.eqb s "Infinity" then Infinite
  else
    let '(i, ni, s1) := digits 10 0 0 s in
    let '(f, nf, s2) :=
      match s1 with
      | String c t => if Ascii.eqb c "." then digits 10 0 0 t else (0, 0, s1)
      | EmptyString => (0, 0, s1)
      end in
    if (0 <? ni) || (0 <? nf) then
      match exponent s2 with
      | Some e => scaled (i * 10 ^ nf + f) (e - nf)
      | None => NotNumeric
      end
    else NotNumeric.

Definition negated (n : numeral) : numeral :=
  match n with Integer z => Integer (- z) | _ => n end.

Definition StringToNumber (s : string) : numeral :=
  match trim s with
  | EmptyString => Integer 0
  | String c t as lit =>
      match t with
      | String d u =>
          if Ascii.eqb c "0" && (Ascii.eqb d "x" || Ascii.eqb d "X") then nonDecimal 16 u
          else if Ascii.eqb c "0" && (Ascii.eqb d "o" || Ascii.eqb d "O") then nonDecimal 8 u
          else if Ascii.eqb c "0" && (Ascii.eqb d "b" || Ascii.eqb d "B") then nonDecimal 2 u
          else if Ascii.eqb c "+" then unsignedDecimal t
          else if Ascii.eqb c "-" then negated (unsignedDecimal t)
          else unsignedDecimal lit
      | EmptyString => unsignedDecimal lit
      end
  end.

(** [Number(s)], and [Number(undefined)] for [None].  A run of decimal
    digits is read at once.  A text that denotes a fraction or an infinity
    has no value in [number] and is read as [NaN] here: see
    [Number_exact]. *)
Definition Number_ (s : option string) : number :=
  match s with
  | Some s =>
      match NilZero.uint_of_string s with
      | Some u => Fin (Z.of_uint u)
      | None =>
          match StringToNumber s with
          | Integer z => Fin z
          | _ => NaN
          end
      end
  | None => NaN
  end.

(** [Number_ s] is the number that the host reads: [s] is no numeric text
    (the host reads [NaN] as well), or it denotes a safe integer. *)
Definition Number_exact (s : option string) : bool :=
  match s with
  | Some s =>
      match NilZero.uint_of_string s with
      | Some u => Z.of_uint u <=? MAX_SAFE_INTEGER
      | None =>
          match StringToNumber s with
          | NotNumeric => true
          | Integer z => Z.abs z <=? MAX_SAFE_INTEGER
          | Fraction | Infinite => false
          end
      end
  | None => true
  end.

(** *** Arrays *)

(** [Array.prototype.sort] calls the comparator and converts what it
    returns to a number, [NaN] counting as [+0]. *)
Definition sortOrder (v : number) : Z :=
  match v with Fin z => z | NaN => 0 end.

Section Sort.
Context {A : Type} (comparefn : A → A → number).

(** [x] goes after [y] only when the comparator says [x > y]. *)
Fixpoint insert (x : A) (l : list A) : list A :=
  match l with
  | [] => [x]
  | y :: l' =>
      if 0 <? sortOrder (comparefn x y) then y :: insert x l'
      else x :: l
  end.

(** [arr.sort(comparefn)], a stable sort (ECMAScript 2019): the result
    as a list.  Every stable sort gives this list when the comparator
    is consistent. *)
Definition sort (l : list A) : list A := foldr insert [] l.
End Sort.

(** The same call as V8 runs it on an array shorter than 64 elements (one
    run): [CountAndMakeRun] takes the longest ascending, or strictly
    descending and then reversed, run at the front, and
    [BinaryInsertionSort] inserts the other elements one by one.  It is
    the host's answer also where the comparator is not consistent. *)
Section SortV8.
Context {A : Type} (comparefn : A → A → number).

(** [order < 0] for [order = Compare(x, y)]. *)
Definition before (x y : A) : bool := sortOrder (comparefn x y) <? 0.

(** The loop of [CountAndMakeRun]: the elements that continue the run
    after [previous], and the others. *)
Fixpoint run_from (descending : bool) (previous : A) (l : list A)
  : list A * list A :=
  match l with
  | [] => ([], [])
  | current :: l' =>
      if (if descending then negb (before current previous)
          else before current previous)
      then ([], l)
      else
        let '(run, rest) := run_from descending current l' in
        (current :: run, rest)
  end.

Definition countAndMakeRun (l : list A) : list A * list A :=
  match l with
  | elementHigh :: elementLow :: l' =>
      let descending := before elementLow elementHigh in
      let '(run, rest) := run_from descending elementLow l' in
      let whole := elementHigh :: elementLow :: run in
      (if descending then rev whole else whole, rest)
  | _ => (l, [])
  end.

(** The binary search of [BinaryInsertionSort] in the sorted part [a]. *)
Fixpoint insertion_point (fuel : nat) (pivot : A) (a : list A)
    (left right : nat) : nat :=
  match fuel with
  | O => left
  | S fuel' =>
      if (left <? right)%nat then
        let mid := (left + (right - left) / 2)%nat in
        match a !! mid with
        | Some y =>
            if before pivot y then insertion_point fuel' pivot a left mid
            else insertion_point fuel' pivot a (S mid) right
        | None => left (* not reached: [mid] is below [right] *)
        end
      else left
  end.

Definition binaryInsert (a : list A) (pivot : A) : list A :=
  let left := insertion_point (S (length a)) pivot a 0 (length a) in
  take left a ++ pivot :: drop left a.

Definition sort_V8 (l : list A) : list A :=
  let '(run, rest) := countAndMakeRun l in
  fold_left binaryInsert rest run.
End SortV8.

(** [arr.indexOf(x)] on an array of numbers: the first index holding a
    value [=== x], or [-1]. *)
Fixpoint indexOf_from (l : list number) (x : number) (i : Z) : Z :=
  match l with
  | [] => -1
  | y :: l' => if strict_eq y x then i else indexOf_from l' x (i + 1)
  end.

Definition indexOf (l : list number) (x : number) : Z := indexOf_from l x 0.

(** [arr[i]] for a number [i]: [undefined] out of range. *)
Definition get {A} (l : list A) (i : Z) : option A :=
  if i <? 0 then None else l !! Z.to_nat i.

End JS.

(** ** Types *)

Module NamedAPIResource.
Record t : Type := mk { name : string; url : string }.
End NamedAPIResource.

(** [PokemonDetail]; [types] holds each entry's [slot] and [type].  The
    [abilities] and [stats] arrays are only rendered and are left out. *)
Module PokemonDetail.
Record t : Type := mk {
  id : JS.number;
  name : string;
  sprites_front_default : option string;
  types : list (Z * NamedAPIResource.t);
  height : Z;
  weight : Z;
  base_experience : Z
}.
End PokemonDetail.

Module PokemonListItem.
Record t : Type := mk {
  id : JS.number;
  name : string;
  url : string;
  image : string;
  types : list string;
  base_experience : Z;
  height : Z;
  weight : Z
}.

#[global] Instance eq_dec : EqDecision t.
Proof. solve_decision. Defined.
End PokemonListItem.

Abbreviation Item := PokemonListItem.t.

(** ** UI helpers: filtering *)

(** [function filterItems(items, q)] *)
Definition filterItems (items : list Item) (q : string) : list Item :=
  let s := JS.toLowerCase (JS.trim q) in
  if negb (JS.truthy s) then items
  else
    List.filter
      (fun p =>
         JS.includes (PokemonListItem.name p) s
         || bool_decide (JS.String_ (PokemonListItem.id p) = s))
      items.

(** What a filter by name can mean.  [contains s sub]: [sub] occurs in
    [s]; [contains_ci s sub]: it occurs when letter case is ignored. *)
Definition contains (s sub : string) : Prop :=
  ∃ a b, s = a +:+ sub +:+ b.

Definition contains_ci (s sub : string) : Prop :=
  contains (JS.toLowerCase s) (JS.toLowerCase sub).

(** An identifier that is an integer (not [NaN]). *)
Definition is_integer (n : JS.number) : bool :=
  match n with JS.Fin _ => true | JS.NaN => false end.

(** The characters of a printed integer: digits and the minus sign. *)
Definition numeric_char (c : ascii) : bool :=
  let n := N_of_ascii c in
  ((48 <=? n) && (n <=? 57) || (n =? 45))%N.

Fixpoint numeric (s : string) : bool :=
  match s with
  | String c s' => numeric_char c && numeric s'
  | EmptyString => true
  end.

(** ** UI helpers: sorting *)

Inductive SortKey : Type := key_name | key_id | key_base_experience.
Inductive SortDir : Type := asc | desc.

(** What [(a as any)[key]] can be: a string or a number. *)
Inductive value : Type :=
| VStr (s : string)
| VNum (n : JS.number).

#[global] Instance value_eq_dec : EqDecision value.
Proof. solve_decision. Defined.

(** [(p as any)[key]] *)
Definition prop (p : Item) (key : SortKey) : value :=
  match key with
  | key_name => VStr (PokemonListItem.name p)
  | key_id => VNum (PokemonListItem.id p)
  | key_base_experience => VNum (JS.Fin (PokemonListItem.base_experience p))
  end.

Section SortItems.
(** [String.prototype.localeCompare] depends on the host's locale; it is a
    parameter of the embedding. *)
Variable localeCompare : string → string → Z.

(** The comparator that [sortItems] passes to [sort]. *)
Definition compareItems (key : SortKey) (dir : SortDir) (a b : Item) : JS.number :=
  let mul := match dir with asc => 1 | desc => -1 end in
  let av := prop a key in
  let bv := prop b key in
  match av, bv with
  | VStr x, VStr y => JS.Fin (localeCompare x y * mul)
  | VNum x, VNum y => JS.mul (JS.sub x y) (JS.Fin mul)
  | _, _ => JS.NaN (* not reached: both values are read with one key *)
  end.

(** [function sortItems(items, key, dir)], as a function of the array's
    contents. *)
Definition sortItems (items : list Item) (key : SortKey) (dir : SortDir) : list Item :=
  JS.sort (compareItems key dir) items.

(** [sortItems] with the host's sort as V8 runs it. *)
Definition sortItems_V8 (items : list Item) (key : SortKey) (dir : SortDir) : list Item :=
  JS.sort_V8 (compareItems key dir) items.

(** *** The same function on array objects

    Arrays live in a heap, addressed by reference. *)
Definition ref : Type := positive.

(** [[...arr]]: a fresh array with the elements of [arr]. *)
Definition spread (h : gmap ref (list Item)) (arr : ref)
  : option (gmap ref (list Item) * ref) :=
  match h !! arr with
  | Some items => let r := fresh (dom h) in Some (<[r := items]> h, r)
  | None => None
  end.

(** [arr.sort(comparefn)]: sorts [arr] in place and returns [arr]. *)
Definition sort_in_place (comparefn : Item → Item → JS.number)
    (h : gmap ref (list Item)) (arr : ref)
  : option (gmap ref (list Item) * ref) :=
  match h !! arr with
  | Some items => Some (<[arr := JS.sort comparefn items]> h, arr)
  | None => None
  end.

(** [return [...items].sort(...)] *)
Definition sortItems_ref (h : gmap ref (list Item)) (items : ref)
    (key : SortKey) (dir : SortDir) : option (gmap ref (list Item) * ref) :=
  match spread h items with
  | Some (h1, copy) => sort_in_place (compareItems key dir) h1 copy
  | None => None
  end.

End SortItems.

(** A comparison by code units, one possible [localeCompare]. *)
Definition codeUnitCompare (a b : string) : Z :=
  match String.compare a b with
  | Eq => 0
  | Lt => -1
  | Gt => 1
  end.

(** ** Gallery: the type filter of [GalleryView] *)

(** [arr.includes(t)] on an array of strings. *)
Definition includes_label (arr : list string) (t : string) : bool :=
  existsb (String.eqb t) arr.

(** The [filtered] memo of [GalleryView]. *)
Definition GalleryView_filtered (items : list Item) (selected : list string) : list Item :=
  if (length selected =? 0)%nat then items
  else
    List.filter
      (fun p => forallb (fun t => includes_label (PokemonListItem.types p) t) selected)
      items.

(** ** Detail view: previous and next identifier

    [None] is the [null] the code yields when there is no such identifier. *)

Definition DetailView_order (items : list Item) : list JS.number :=
  map PokemonListItem.id items.

Definition DetailView_index (items : list Item) (pid : JS.number) : Z :=
  JS.indexOf (DetailView_order items) pid.

Definition DetailView_prevId (items : list Item) (pid : JS.number) : option JS.number :=
  let order := DetailView_order items in
  let index := JS.indexOf order pid in
  if 0 <? index then JS.get order (index - 1) else None.

Definition DetailView_nextId (items : list Item) (pid : JS.number) : option JS.number :=
  let order := DetailView_order items in
  let index := JS.indexOf order pid in
  if (0 <=? index) && (index <? Z.of_nat (length order) - 1)
  then JS.get order (index + 1)
  else None.

(** ** [getPokemonPage] *)

(** *** The light list *)

(** [it.url.split("/").filter(Boolean).pop()] *)
Definition trailingSegment (url : string) : option string :=
  JS.pop (List.filter JS.truthy (JS.split "/" url)).

Definition sprite (id : JS.number) : string :=
  "https://raw.githubusercontent.com/PokeAPI/sprites/master/sprites/pokemon/"
  +:+ JS.String_ id +:+ ".png".

(** The callback of [list.map]. *)
Definition lightItem (it : NamedAPIResource.t) : Item :=
  let id := JS.Number_ (trailingSegment (NamedAPIResource.url it)) in
  {| PokemonListItem.id := id;
     PokemonListItem.name := NamedAPIResource.name it;
     PokemonListItem.url := NamedAPIResource.url it;
     PokemonListItem.image := sprite id;
     PokemonListItem.types := [];
     PokemonListItem.base_experience := -1;
     PokemonListItem.height := -1;
     PokemonListItem.weight := -1 |}.

(** [list.map(...).sort((a, b) => a.id - b.id)] *)
Definition buildLight (results : list NamedAPIResource.t) : list Item :=
  JS.sort
    (fun a b => JS.sub (PokemonListItem.id a) (PokemonListItem.id b))
    (map lightItem results).

(** *** Enrichment

    The event loop runs one task at a time; a worker gives up control only
    at [await getPokemonDetail(...)].  A state of the pool records, besides
    the program's [light] and [i], what the transport sees: the requests
    issued so far, how many are in flight, and the answers delivered. *)

Definition concurrency : nat := 4.

(** A worker is a chain of [next()] calls: it waits for the answer to the
    request of the index it claimed, or it has returned. *)
Inductive worker : Type :=
| Awaiting (idx : nat)
| Returned.

#[global] Instance worker_eq_dec : EqDecision worker.
Proof. solve_decision. Defined.

Record pool : Type := mkPool {
  light : list Item;
  i : nat;
  workers : list worker;
  issued : list (nat * JS.number);
  inflight : nat;
  settled : list (nat * option PokemonDetail.t)
}.

(** The object literal assigned to [light[idx]] when the detail arrived. *)
Definition enrich (p : Item) (d : PokemonDetail.t) : Item :=
  {| PokemonListItem.id := PokemonListItem.id p;
     PokemonListItem.name := PokemonListItem.name p;
     PokemonListItem.url := PokemonListItem.url p;
     PokemonListItem.image :=
       match PokemonDetail.sprites_front_default d with
       | Some s => if JS.truthy s then s else PokemonListItem.image p
       | None => PokemonListItem.image p
       end;
     PokemonListItem.types :=
       map (fun t => NamedAPIResource.name (snd t)) (PokemonDetail.types d);
     PokemonListItem.base_experience := PokemonDetail.base_experience d;
     PokemonListItem.height := PokemonDetail.height d;
     PokemonListItem.weight := PokemonDetail.weight d |}.

(** [next()] up to its first [await]: return when the cursor is at the end,
    else claim index [i], advance the cursor and send the request. *)
Definition claim (s : pool) : worker * pool :=
  if (length (light s) <=? i s)%nat then (Returned, s)
  else
    match light s !! i s with
    | Some p =>
        (Awaiting (i s),
         mkPool (light s) (S (i s)) (workers s)
                (issued s ++ [(i s, PokemonListItem.id p)])
                (S (inflight s)) (settled s))
    | None => (Returned, s) (* not reached: [i s] is below the length *)
    end.

(** [Array.from({ length: m }, () => next())]: [m] calls in a row. *)
Fixpoint spawn (m : nat) (s : pool) : pool :=
  match m with
  | O => s
  | S m' =>
      let '(w, s') := claim s in
      spawn m' (mkPool (light s') (i s') (workers s' ++ [w])
                       (issued s') (inflight s') (settled s'))
  end.

(** The pool when [Promise.all] starts waiting. *)
Definition start (light0 : list Item) : pool :=
  spawn (Nat.min concurrency (length light0))
        (mkPool light0 0 [] [] 0 []).

(** The request of worker [w] is answered with [r] ([None]: it failed);
    the worker runs to its next [await] or to its end.  [None] when [w]
    is not waiting. *)
Definition resume (s : pool) (w : nat) (r : option PokemonDetail.t) : option pool :=
  match workers s !! w with
  | Some (Awaiting idx) =>
      let light' :=
        match r, light s !! idx with
        | Some d, Some p => <[idx := enrich p d]> (light s)
        | _, _ => light s (* [catch {}]: keep the light item *)
        end in
      let s1 := mkPool light' (i s) (workers s) (issued s)
                       (pred (inflight s)) (settled s ++ [(idx, r)]) in
      let '(wk, s2) := claim s1 in
      Some (mkPool (light s2) (i s2) (<[w := wk]> (workers s2))
                   (issued s2) (inflight s2) (settled s2))
  | _ => None
  end.

(** The answers arrive in the order of [sched]. *)
Fixpoint run (s : pool) (sched : list (nat * option PokemonDetail.t)) : option pool :=
  match sched with
  | [] => Some s
  | (w, r) :: sched' =>
      match resume s w r with
      | Some s' => run s' sched'
      | None => None
      end
  end.

(** [Promise.all] is fulfilled when every worker has returned. *)
Definition all_returned (s : pool) : bool :=
  forallb (fun w => bool_decide (w = Returned)) (workers s).

(** *** The fallback of the outer [catch] *)

Definition mock : list Item :=
  [ {| PokemonListItem.id := JS.Fin 1;
       PokemonListItem.name := "bulbasaur";
       PokemonListItem.url := "";
       PokemonListItem.image :=
         "https://raw.githubusercontent.com/PokeAPI/sprites/master/sprites/pokemon/1.png";
       PokemonListItem.types := ["grass"; "poison"];
       PokemonListItem.base_experience := 64;
       PokemonListItem.height := 7;
       PokemonListItem.weight := 69 |};
    {| PokemonListItem.id := JS.Fin 4;
       PokemonListItem.name := "charmander";
       PokemonListItem.url := "";
       PokemonListItem.image :=
         "https://raw.githubusercontent.com/PokeAPI/sprites/master/sprites/pokemon/4.png";
       PokemonListItem.types := ["fire"];
       PokemonListItem.base_experience := 62;
       PokemonListItem.height := 6;
       PokemonListItem.weight := 85 |};
    {| PokemonListItem.id := JS.Fin 7;
       PokemonListItem.name := "squirtle";
       PokemonListItem.url := "";
       PokemonListItem.image :=
         "https://raw.githubusercontent.com/PokeAPI/sprites/master/sprites/pokemon/7.png";
       PokemonListItem.types := ["water"];
       PokemonListItem.base_experience := 63;
       PokemonListItem.height := 5;
       PokemonListItem.weight := 90 |} ].

(** *** The whole function

    [page] is the outcome of [api.get("/pokemon", ...)]: the [results] of
    the response, or [None] when the call throws.  [sched] is the order in
    which the detail requests are answered.  The result is [None] when
    [sched] is not a complete run of the pool (the promise of
    [getPokemonPage] is not yet settled). *)
Definition getPokemonPage (page : option (list NamedAPIResource.t))
    (sched : list (nat * option PokemonDetail.t)) : option (list Item) :=
  match page with
  | Some results =>
      match run (start (buildLight results)) sched with
      | Some s => if all_returned s then Some (light s) else None
      | None => None
      end
  | None => Some mock
  end.

(** *** Notions used to state what a run does *)

(** The indices a worker waits for: one or none. *)
Definition awaited_by (w : worker) : list nat :=
  match w with Awaiting k => [k] | Returned => [] end.

(** The indices whose request is in flight. *)
Definition awaited (s : pool) : list nat := workers s ≫= awaited_by.

(** The answer delivered for index [k], if it has been. *)
Fixpoint answer_of (log : list (nat * option PokemonDetail.t)) (k : nat)
  : option (option PokemonDetail.t) :=
  match log with
  | [] => None
  | (j, r) :: log' => if decide (j = k) then Some r else answer_of log' k
  end.

(** What an entry becomes: enriched by its own detail, else as it was. *)
Definition outcome (p : Item) (a : option (option PokemonDetail.t)) : Item :=
  match a with
  | Some (Some d) => enrich p d
  | _ => p
  end.

(** The first worker that waits for an answer. *)
Definition waiting (s : pool) : option (nat * worker) :=
  list_find (λ w, w ≠ Returned) (workers s).

(** A schedule: as long as a worker waits, the first one that does gets
    the answer [answer idx] to its request for index [idx]. *)
Fixpoint drain (fuel : nat) (answer : nat → option PokemonDetail.t) (s : pool)
  : list (nat * option PokemonDetail.t) :=
  match fuel with
  | O => []
  | S fuel' =>
      match waiting s with
      | Some (w, Awaiting idx) =>
          match resume s w (answer idx) with
          | Some s' => (w, answer idx) :: drain fuel' answer s'
          | None => []
          end
      | _ => []
      end
  end.

(** What holds of every state of a pool that was started on [light0];
    [aw] lists the indices in flight and [ret] says that some worker has
    returned. *)
Record pool_inv_of (light0 : list Item) (aw : list nat) (ret : Prop) (s : pool)
  : Prop := {
  inv_length : length (light s) = length light0;
  inv_cursor : (i s ≤ length light0)%nat;
  inv_inflight : inflight s = length aw;
  inv_issued : map fst (issued s) = seq 0 (i s);
  inv_issued_id : ∀ k n, (k, n) ∈ issued s →
                         PokemonListItem.id <$> light0 !! k = Some n;
  inv_claimed : aw ++ map fst (settled s) ≡ₚ seq 0 (i s);
  inv_light : ∀ k p, light0 !! k = Some p →
                     light s !! k = Some (outcome p (answer_of (settled s) k));
  inv_returned : ret → i s = length light0
}.

Definition pool_inv (light0 : list Item) (s : pool) : Prop :=
  pool_inv_of light0 (awaited s) (Returned ∈ workers s) s.

(** ** [getAllTypes] and the filter chips of [GalleryFilters] *)

(** [getAllTypes], on the outcome of [api.get("/type")]: the [results] of
    the response, or [None] when the call throws (the function then throws
    as well). *)
Definition getAllTypes (res : option (list NamedAPIResource.t)) : option (list string) :=
  match res with
  | Some results =>
      Some (List.filter
              (fun n => negb (includes_label ["unknown"; "shadow"] n))
              (map NamedAPIResource.name results))
  | None => None
  end.

(** [toggle(t)] of [GalleryFilters]: the list handed to [onChange]. *)
Definition GalleryFilters_toggle (selected : list string) (t : string) : list string :=
  if includes_label selected t
  then List.filter (fun x => negb (String.eqb x t)) selected
  else selected ++ [t].

(** ** The list view *)

(** The [filteredSorted] memo of [ListView]. *)
Definition ListView_filteredSorted (localeCompare : string → string → Z)
    (items : list Item) (query : string) (sortKey : SortKey) (sortDir : SortDir)
  : list Item :=
  sortItems localeCompare (filterItems items query) sortKey sortDir.

(** The [error] state of [ListView]: empty, the notice of the limited
    mode, or the failure message of the [catch] (which is not reached,
    since [getPokemonPage] handles its own failures). *)
Inductive ListView_error : Type :=
| no_error
| limited_mode
| failed_to_load.

(** [data.every((d) => d.base_experience === -1)] *)
Definition every_unenriched (data : list Item) : bool :=
  forallb (fun d => PokemonListItem.base_experience d =? -1) data.

(** The effect of [ListView] on the shared [items] and its [error], for an
    outcome [page] of the page request and an order [sched] of the
    answers; [None] while [getPokemonPage] is pending. *)
Definition ListView_effect (items : list Item) (error : ListView_error)
    (page : option (list NamedAPIResource.t))
    (sched : list (nat * option PokemonDetail.t))
  : option (list Item * ListView_error) :=
  if negb (length items =? 0)%nat then Some (items, error)
  else
    match getPokemonPage page sched with
    | Some data =>
        Some (data, if every_unenriched data then limited_mode else error)
    | None => None
    end.

(** ** Links and navigation *)

(** The truthiness of a number, as in [if (prevId)]. *)
Definition number_truthy (n : JS.number) : bool :=
  match n with
  | JS.Fin z => negb (z =? 0)
  | JS.NaN => false
  end.

(** The template [`/pokemon/${id}`]. *)
Definition pokemon_route (id : JS.number) : string :=
  "/pokemon/" +:+ JS.String_ id.

(** The [to] of the link of [PokemonCard]. *)
Definition PokemonCard_to (p : Item) : string :=
  pokemon_route (PokemonListItem.id p).

(** [const pid = Number(id)] of [DetailView], for the route parameter. *)
Definition DetailView_pid (id : option string) : JS.number := JS.Number_ id.

(** [goPrev()] and [goNext()]: the route handed to [navigate], if any. *)
Definition DetailView_goPrev (items : list Item) (pid : JS.number) : option string :=
  match DetailView_prevId items pid with
  | Some prevId => if number_truthy prevId then Some (pokemon_route prevId) else None
  | None => None
  end.

Definition DetailView_goNext (items : list Item) (pid : JS.number) : option string :=
  match DetailView_nextId items pid with
  | Some nextId => if number_truthy nextId then Some (pokemon_route nextId) else None
  | None => None
  end.

(** ** Notions used to state how sorting behaves *)

(** The difference the comparator of [sortItems] computes before the
    direction is applied (0 where the identifier is not a number). *)
Definition keyDiff (localeCompare : string → string → Z) (key : SortKey)
    (a b : Item) : Z :=
  match prop a key, prop b key with
  | VStr x, VStr y => localeCompare x y
  | VNum (JS.Fin x), VNum (JS.Fin y) => x - y
  | _, _ => 0
  end.

(** The sign the direction puts on the difference. *)
Definition dirSign (dir : SortDir) : Z :=
  match dir with asc => 1 | desc => -1 end.

(** An item whose value under [key] can be ordered: a number, not [NaN]. *)
Definition orderable (key : SortKey) (p : Item) : Prop :=
  match prop p key with
  | VNum n => is_integer n = true
  | VStr _ => True
  end.

(** A [localeCompare] that is an order: exchanging the arguments flips the
    sign, and "not after" is transitive. *)
Definition is_order (localeCompare : string → string → Z) : Prop :=
  (∀ a b, Z.sgn (localeCompare b a) = - Z.sgn (localeCompare a b))
  ∧ (∀ a b c, localeCompare a b ≤ 0 → localeCompare b c ≤ 0 →
              localeCompare a c ≤ 0).

(** Insertion behind the elements that [x] is not before: the place that
    the binary search of V8 finds for [x] in a sorted array. *)
Fixpoint insert_behind {A} (comparefn : A → A → JS.number) (x : A) (l : list A)
  : list A :=
  match l with
  | [] => [x]
  | y :: l' =>
      if JS.before comparefn x y then x :: l
      else y :: insert_behind comparefn x l'
  end.

(** The answer that a run has delivered for index [k], if any. *)
Definition delivered (light0 : list Item)
    (sched : list (nat * option PokemonDetail.t)) (k : nat)
  : option (option PokemonDetail.t) :=
  match run (start light0) sched with
  | Some s => answer_of (settled s) k
  | None => None
  end.

(** ** Sample data

    The [sample] of [runRuntimeTests], and inputs used in examples. *)

Definition sample : list Item :=
  [ PokemonListItem.mk (JS.Fin 1) "bulbasaur" "" "" ["grass"] 64 7 69;
    PokemonListItem.mk (JS.Fin 2) "ivysaur" "" "" ["grass"] 142 10 130;
    PokemonListItem.mk (JS.Fin 4) "charmander" "" "" ["fire"] 62 6 85 ].

(** An item whose name starts with a capital letter. *)
Definition capitalised : Item :=
  PokemonListItem.mk (JS.Fin 1) "Bulbasaur" "" "" ["grass"] 64 7 69.

(** Two items with the same base experience, and one without. *)
Definition tied : list Item :=
  [ PokemonListItem.mk (JS.Fin 7) "squirtle" "" "" ["water"] 63 5 90;
    PokemonListItem.mk (JS.Fin 4) "charmander" "" "" ["fire"] 62 6 85;
    PokemonListItem.mk (JS.Fin 152) "chikorita" "" "" ["grass"] 63 9 64 ].

(** A list with an identifier that is not a number, and two items with
    the identifier 2. *)
Definition unordered : list Item :=
  [ PokemonListItem.mk (JS.Fin 5) "charmeleon" "" "" ["fire"] 142 11 190;
    PokemonListItem.mk (JS.Fin 6) "charizard" "" "" ["fire"; "flying"] 267 17 905;
    PokemonListItem.mk (JS.Fin 7) "squirtle" "" "" ["water"] 63 5 90;
    PokemonListItem.mk JS.NaN "missingno" "" "" [] (-1) (-1) (-1);
    PokemonListItem.mk (JS.Fin 2) "ivysaur-a" "" "" ["grass"] 142 10 130;
    PokemonListItem.mk (JS.Fin 1) "bulbasaur" "" "" ["grass"] 64 7 69;
    PokemonListItem.mk (JS.Fin 2) "ivysaur-b" "" "" ["grass"] 142 10 130 ].

Definition page_example : list NamedAPIResource.t :=
  [ NamedAPIResource.mk "bulbasaur" "https://pokeapi.co/api/v2/pokemon/1/";
    NamedAPIResource.mk "charmander" "https://pokeapi.co/api/v2/pokemon/4/" ].

(** The light list of [page_example]. *)
Definition light_example : list Item :=
  [ PokemonListItem.mk (JS.Fin 1) "bulbasaur" "https://pokeapi.co/api/v2/pokemon/1/"
      "https://raw.githubusercontent.com/PokeAPI/sprites/master/sprites/pokemon/1.png"
      [] (-1) (-1) (-1);
    PokemonListItem.mk (JS.Fin 4) "charmander" "https://pokeapi.co/api/v2/pokemon/4/"
      "https://raw.githubusercontent.com/PokeAPI/sprites/master/sprites/pokemon/4.png"
      [] (-1) (-1) (-1) ].

Definition detail_example : PokemonDetail.t :=
  PokemonDetail.mk (JS.Fin 1) "bulbasaur" None
    [(1, NamedAPIResource.mk "grass" ""); (2, NamedAPIResource.mk "poison" "")]
    7 69 64.

(** The pool on [page_example] after the first request was answered with
    [detail_example]. *)
Definition pool_example : pool :=
  default (start (buildLight page_example))
          (resume (start (buildLight page_example)) 0 (Some detail_example)).

(** Two orders of answers for [page_example], and the list returned for
    the first. *)
Definition sched_example : list (nat * option PokemonDetail.t) :=
  [(0%nat, Some detail_example); (1%nat, None)].

Definition sched_example' : list (nat * option PokemonDetail.t) :=
  [(1%nat, None); (0%nat, Some detail_example)].

Definition data_example : list Item :=
  default [] (getPokemonPage (Some page_example) sched_example).

(** * Properties *)

(** ** The sort of the host *)

Section SortFacts.
Context {A : Type} (comparefn : A → A → JS.number).

Lemma insert_perm (x : A) (l : list A) : JS.insert comparefn x l ≡ₚ x :: l.
Proof.
  induction l as [|y l IH]; simpl; [done|].
  destruct (0 <? JS.sortOrder (comparefn x y)); [|done].
  rewrite IH. apply Permutation_swap.
Qed.

Lemma sort_perm (l : list A) : JS.sort comparefn l ≡ₚ l.
Proof.
  induction l as [|x l IH]; simpl; [done|].
  by rewrite insert_perm, IH.
Qed.

Lemma sort_length (l : list A) : length (JS.sort comparefn l) = length l.
Proof. apply Permutation_length, sort_perm. Qed.

(** Inserting changes a sub-sequence only by putting [x] in front of it,
    as long as [x] is not greater than any element of the sub-sequence. *)
Lemma insert_filter (P : A → Prop) `{!∀ a, Decision (P a)} (x : A) (l : list A) :
  (∀ y, P x → P y → y ∈ l → JS.sortOrder (comparefn x y) ≤ 0) →
  filter P (JS.insert comparefn x l) = filter P (x :: l).
Proof.
  induction l as [|y l IH]; intros Hle; simpl; [done|].
  destruct (0 <? JS.sortOrder (comparefn x y)) eqn:Hgt; [|done].
  apply Z.ltb_lt in Hgt.
  rewrite filter_cons, IH by (intros; apply Hle; auto using list_elem_of_further).
  rewrite !filter_cons.
  destruct (decide (P y)) as [Hy|]; [|done].
  destruct (decide (P x)) as [Hx|]; [|done].
  specialize (Hle y Hx Hy (list_elem_of_here _ _)). lia.
Qed.

(** Stability: a sub-sequence whose elements the comparator never ranks
    strictly comes out as it went in. *)
Lemma sort_stable (P : A → Prop) `{!∀ a, Decision (P a)} (l : list A) :
  (∀ x y, P x → P y → JS.sortOrder (comparefn x y) ≤ 0) →
  filter P (JS.sort comparefn l) = filter P l.
Proof.
  intros Hle. induction l as [|x l IH]; simpl; [done|].
  rewrite insert_filter by eauto.
  by rewrite !filter_cons, IH.
Qed.

(** Where the comparator is a total preorder, here on the elements that
    satisfy [Q], the result is sorted. *)
Lemma insert_sorted (Q : A → Prop) (R : A → A → Prop) (x : A) (l : list A) :
  (∀ a b, Q a → Q b → ¬ 0 < JS.sortOrder (comparefn a b) → R a b) →
  (∀ a b, Q a → Q b → 0 < JS.sortOrder (comparefn a b) → R b a) →
  (∀ a b c, R a b → R b c → R a c) →
  Q x → Forall Q l →
  StronglySorted R l → StronglySorted R (JS.insert comparefn x l).
Proof.
  intros Hle Hgt Htr Hx HQ. induction 1 as [|y l Hs IH Hall]; simpl.
  - repeat constructor.
  - apply Forall_cons in HQ as [Hy HQ].
    destruct (0 <? JS.sortOrder (comparefn x y)) eqn:E.
    + apply Z.ltb_lt in E. constructor; [by apply IH|].
      rewrite insert_perm. constructor; [by apply Hgt|done].
    + apply Z.ltb_ge in E.
      assert (R x y) by (apply Hle; [done..|lia]).
      constructor; [by constructor|].
      constructor; [done|].
      eapply Forall_impl; [exact Hall|]. intros z Hz. by eapply Htr.
Qed.

Lemma sort_sorted (Q : A → Prop) (R : A → A → Prop) (l : list A) :
  (∀ a b, Q a → Q b → ¬ 0 < JS.sortOrder (comparefn a b) → R a b) →
  (∀ a b, Q a → Q b → 0 < JS.sortOrder (comparefn a b) → R b a) →
  (∀ a b c, R a b → R b c → R a c) →
  Forall Q l →
  StronglySorted R (JS.sort comparefn l).
Proof.
  intros Hle Hgt Htr. induction 1 as [|x l Hx HQ IH]; simpl; [constructor|].
  apply (insert_sorted Q); try done. by rewrite sort_perm.
Qed.

End SortFacts.

(** ** Sorting with a comparator that is an order *)

Section SortOrderFacts.
Context {A : Type} (comparefn : A → A → JS.number) (Q : A → Prop).
Local Abbreviation ord a b := (JS.sortOrder (comparefn a b)).
Local Abbreviation ranked := (λ a b : A, Q a ∧ Q b ∧ ord a b ≤ 0).

Hypothesis ord_trans :
  ∀ a b c, Q a → Q b → Q c → ord a b ≤ 0 → ord b c ≤ 0 → ord a c ≤ 0.
Hypothesis ord_total : ∀ a b, Q a → Q b → 0 < ord a b → ord b a ≤ 0.

Lemma sort_ranked (l : list A) :
  Forall Q l → StronglySorted ranked (JS.sort comparefn l).
Proof.
  apply sort_sorted.
  - intros a b Ha Hb Hord. split_and!; [done..|lia].
  - intros a b Ha Hb Hord. split_and!; [done..|by apply ord_total].
  - intros a b c (Ha & Hb & Hab) (_ & Hc & Hbc). split_and!; eauto.
Qed.

(** An element that is not after the head goes in front. *)
Lemma insert_front (x : A) (l : list A) :
  (∀ y, head l = Some y → ord x y ≤ 0) → JS.insert comparefn x l = x :: l.
Proof.
  destruct l as [|y l]; [done|]. intros Hy. simpl.
  specialize (Hy y eq_refl).
  by replace (0 <? ord x y) with false by (symmetry; apply Z.ltb_ge; lia).
Qed.

(** Sorting a sorted list changes nothing. *)
Lemma sort_of_sorted (l : list A) :
  StronglySorted ranked l → JS.sort comparefn l = l.
Proof.
  induction 1 as [|x l Hs IH Hall]; simpl; [done|].
  rewrite IH. apply insert_front. intros y Hy.
  destruct l as [|y' l]; simplify_eq/=.
  apply Forall_cons in Hall as [(_ & _ & ?) _]. done.
Qed.

Lemma sort_idempotent (l : list A) :
  Forall Q l → JS.sort comparefn (JS.sort comparefn l) = JS.sort comparefn l.
Proof. intros Hl. by apply sort_of_sorted, sort_ranked. Qed.

(** Inserting into a sorted list and then filtering is filtering and then
    inserting. *)
Lemma insert_filter_sorted (f : A → bool) (x : A) (l : list A) :
  Q x → StronglySorted ranked l →
  List.filter f (JS.insert comparefn x l)
  = if f x then JS.insert comparefn x (List.filter f l) else List.filter f l.
Proof.
  intros Hx. induction 1 as [|y l Hs IH Hall]; simpl.
  - by destruct (f x).
  - destruct (0 <? ord x y) eqn:E; simpl.
    + rewrite IH. destruct (f x), (f y); simpl; by rewrite ?E.
    + destruct (f x) eqn:Hfx; [|done].
      rewrite insert_front; [done|].
      intros z Hz. apply Z.ltb_ge in E.
      destruct (f y) eqn:Hfy; simpl in Hz.
      * by injection Hz as <-.
      * assert (Hin : In z (List.filter f l)).
        { destruct (List.filter f l); simplify_eq/=. by left. }
        apply filter_In in Hin as [Hin _].
        rewrite Forall_forall in Hall.
        apply list_elem_of_In, Hall in Hin as (Hy & Hzq & Hyz).
        by apply (ord_trans x y z).
Qed.

Lemma List_filter_Forall (f : A → bool) (l : list A) :
  Forall Q l → Forall Q (List.filter f l).
Proof.
  induction 1 as [|x l Hx Hl IH]; simpl; [done|].
  destruct (f x); [by constructor|done].
Qed.

(** Filtering commutes with sorting. *)
Lemma sort_filter (f : A → bool) (l : list A) :
  Forall Q l →
  List.filter f (JS.sort comparefn l) = JS.sort comparefn (List.filter f l).
Proof.
  induction 1 as [|x l Hx Hl IH]; simpl; [done|].
  rewrite insert_filter_sorted by (done || by apply sort_ranked).
  rewrite IH. by destruct (f x).
Qed.

End SortOrderFacts.

Lemma StronglySorted_weaken {A} (R1 R2 : A → A → Prop) (l : list A) :
  (∀ a b, R1 a b → R2 a b) → StronglySorted R1 l → StronglySorted R2 l.
Proof.
  intros Himpl. induction 1 as [|x l Hs IH Hall]; constructor; [done|].
  eapply Forall_impl; [exact Hall|]. auto.
Qed.

Lemma StronglySorted_reverse {A} (R : A → A → Prop) (l : list A) :
  StronglySorted R l → StronglySorted (flip R) (reverse l).
Proof.
  induction 1 as [|x l Hs IH Hall]; [constructor|].
  rewrite reverse_cons. apply StronglySorted_app_2.
  - intros a b Ha Hb. apply list_elem_of_singleton in Hb as ->.
    rewrite elem_of_reverse in Ha. rewrite Forall_forall in Hall.
    unfold flip. by apply Hall.
  - done.
  - repeat constructor.
Qed.

(** ** The comparator of [sortItems] as an order *)

Lemma compareItems_order lc key dir (a b : Item) :
  orderable key a → orderable key b →
  JS.sortOrder (compareItems lc key dir a b) = keyDiff lc key a b * dirSign dir.
Proof.
  unfold orderable, compareItems, keyDiff.
  destruct (prop a key) as [x|[x|]], (prop b key) as [y|[y|]];
    try done; by destruct dir.
Qed.

Lemma keyDiff_antisym lc key (a b : Item) :
  is_order lc → orderable key a → orderable key b →
  Z.sgn (keyDiff lc key b a) = - Z.sgn (keyDiff lc key a b).
Proof.
  intros [Hanti _]. unfold orderable, keyDiff.
  destruct key; simpl; [intros _ _; apply Hanti| |intros _ _; lia].
  destruct (PokemonListItem.id a), (PokemonListItem.id b); try done. lia.
Qed.

Lemma keyDiff_trans lc key (a b c : Item) :
  is_order lc → orderable key a → orderable key b → orderable key c →
  keyDiff lc key a b ≤ 0 → keyDiff lc key b c ≤ 0 → keyDiff lc key a c ≤ 0.
Proof.
  intros [_ Htr]. unfold orderable, keyDiff.
  destruct key; simpl; [intros _ _ _; apply Htr| |intros _ _ _; lia].
  destruct (PokemonListItem.id a), (PokemonListItem.id b),
    (PokemonListItem.id c); try done. lia.
Qed.

(** The two hypotheses of the facts on sorting, for [sortItems]. *)
Lemma compareItems_trans lc key dir (a b c : Item) :
  is_order lc → orderable key a → orderable key b → orderable key c →
  JS.sortOrder (compareItems lc key dir a b) ≤ 0 →
  JS.sortOrder (compareItems lc key dir b c) ≤ 0 →
  JS.sortOrder (compareItems lc key dir a c) ≤ 0.
Proof.
  intros Hlc Ha Hb Hc. rewrite !compareItems_order by done.
  destruct dir; simpl.
  - rewrite !Z.mul_1_r. by apply keyDiff_trans.
  - pose proof (keyDiff_antisym lc key a b Hlc Ha Hb).
    pose proof (keyDiff_antisym lc key b c Hlc Hb Hc).
    pose proof (keyDiff_antisym lc key a c Hlc Ha Hc).
    pose proof (keyDiff_trans lc key c b a Hlc Hc Hb Ha). lia.
Qed.

Lemma compareItems_total lc key dir (a b : Item) :
  is_order lc → orderable key a → orderable key b →
  0 < JS.sortOrder (compareItems lc key dir a b) →
  JS.sortOrder (compareItems lc key dir b a) ≤ 0.
Proof.
  intros Hlc Ha Hb. rewrite !compareItems_order by done.
  pose proof (keyDiff_antisym lc key a b Hlc Ha Hb).
  destruct dir; simpl; lia.
Qed.

Lemma compareItems_antisym lc key dir (a b : Item) :
  is_order lc → orderable key a → orderable key b →
  Z.sgn (JS.sortOrder (compareItems lc key dir b a))
  = - Z.sgn (JS.sortOrder (compareItems lc key dir a b)).
Proof.
  intros Hlc Ha Hb. rewrite !compareItems_order by done.
  rewrite !Z.sgn_mul, (keyDiff_antisym lc key a b) by done. lia.
Qed.

(** With the keys [name] and [base_experience] every item can be ordered. *)
Lemma orderable_other_keys (key : SortKey) (items : list Item) :
  key ≠ key_id → Forall (orderable key) items.
Proof.
  intros Hkey. apply Forall_forall. intros p _. unfold orderable.
  by destruct key.
Qed.

Lemma sortItems_ranked lc (items : list Item) key dir :
  is_order lc → Forall (orderable key) items →
  StronglySorted
    (λ a b, orderable key a ∧ orderable key b
            ∧ keyDiff lc key a b * dirSign dir ≤ 0)
    (sortItems lc items key dir).
Proof.
  intros Hlc Hitems. unfold sortItems.
  eapply StronglySorted_weaken;
    [|apply (sort_ranked (compareItems lc key dir) (orderable key))].
  - intros a b (Ha & Hb & Hab). by rewrite compareItems_order in Hab.
  - intros a b c. by apply compareItems_trans.
  - intros a b. by apply compareItems_total.
  - done.
Qed.

(** [codeUnitCompare] is an order. *)
Lemma codeUnitCompare_le (a b : string) :
  codeUnitCompare a b ≤ 0 ↔ String.le a b.
Proof.
  unfold codeUnitCompare, String.le, String.leb.
  destruct (String.compare a b); simpl; split; (done || lia).
Qed.

Lemma codeUnitCompare_order : is_order codeUnitCompare.
Proof.
  split.
  - intros a b. unfold codeUnitCompare.
    rewrite (String.compare_antisym a b).
    by destruct (String.compare b a).
  - intros a b c. rewrite !codeUnitCompare_le. apply transitivity.
Qed.

Lemma codeUnitCompare_zero (a b : string) : codeUnitCompare a b = 0 → a = b.
Proof.
  unfold codeUnitCompare. intros H. apply String.compare_eq_iff.
  by destruct (String.compare a b).
Qed.

Lemma keyDiff_zero lc key (a b : Item) :
  (∀ x y, lc x y = 0 → x = y) →
  orderable key a → orderable key b →
  keyDiff lc key a b = 0 → prop a key = prop b key.
Proof.
  intros Hzero. unfold orderable, keyDiff. destruct key; simpl.
  - intros _ _ H. f_equal. by apply Hzero.
  - destruct (PokemonListItem.id a), (PokemonListItem.id b); try done.
    intros _ _ H. do 2 f_equal. lia.
  - intros _ _ H. do 2 f_equal. lia.
Qed.

Lemma NoDup_map_eq {A B} (f : A → B) (l : list A) (a b : A) :
  NoDup (map f l) → a ∈ l → b ∈ l → f a = f b → a = b.
Proof.
  induction l as [|x l IH]; simpl; [by intros _ ?%elem_of_nil|].
  intros [Hx Hl]%NoDup_cons Ha Hb Heq.
  apply elem_of_cons in Ha as [->|Ha]; apply elem_of_cons in Hb as [->|Hb].
  - done.
  - destruct Hx. rewrite Heq. by apply (list_elem_of_fmap_2 f).
  - destruct Hx. rewrite <-Heq. by apply (list_elem_of_fmap_2 f).
  - by apply IH.
Qed.

Lemma List_filter_sublist {A} (f : A → bool) (l : list A) :
  List.filter f l `sublist_of` l.
Proof.
  induction l as [|x l IH]; simpl; [done|].
  destruct (f x); by constructor.
Qed.

Lemma List_filter_idempotent {A} (f : A → bool) (l : list A) :
  List.filter f (List.filter f l) = List.filter f l.
Proof.
  induction l as [|x l IH]; simpl; [done|].
  destruct (f x) eqn:E; simpl; by rewrite ?E, IH.
Qed.

(** ** The sort as V8 runs it

    Where the comparator is consistent on the elements of the array
    (exchanging the arguments flips the sign, and "not after" is
    transitive), the run detection and the binary insertion of V8 return
    the array of [JS.sort]. *)

Lemma sgn_flip (a b : Z) :
  Z.sgn b = - Z.sgn a → (a < 0 ↔ 0 < b) ∧ (a = 0 ↔ b = 0) ∧ (0 < a ↔ b < 0).
Proof. destruct a, b; simpl; lia. Qed.

Lemma StronglySorted_lookup_lt {A} (R : A → A → Prop) (l : list A)
    (i j : nat) (x y : A) :
  StronglySorted R l → l !! i = Some x → l !! j = Some y → (i < j)%nat → R x y.
Proof.
  intros Hs. revert i j. induction Hs as [|z l Hs IH Hall]; intros i j Hi Hj Hlt.
  - done.
  - destruct j as [|j]; [lia|]. destruct i as [|i]; simpl in *.
    + injection Hi as ->. rewrite Forall_forall in Hall.
      by apply Hall, list_elem_of_lookup_2 with j.
    + apply (IH i j); [done..|lia].
Qed.

Section SortV8Facts.
Context {A : Type} (comparefn : A → A → JS.number) (Q : A → Prop).
Local Abbreviation ord a b := (JS.sortOrder (comparefn a b)).
Local Abbreviation ranked := (λ a b : A, Q a ∧ Q b ∧ ord a b ≤ 0).
Local Abbreviation above := (λ a b : A, Q a ∧ Q b ∧ ord b a < 0).

Hypothesis ord_trans :
  ∀ a b c, Q a → Q b → Q c → ord a b ≤ 0 → ord b c ≤ 0 → ord a c ≤ 0.
Hypothesis ord_antisym :
  ∀ a b, Q a → Q b → Z.sgn (ord b a) = - Z.sgn (ord a b).

Lemma ord_flip (a b : A) :
  Q a → Q b →
  (ord a b < 0 ↔ 0 < ord b a) ∧ (ord a b = 0 ↔ ord b a = 0)
  ∧ (0 < ord a b ↔ ord b a < 0).
Proof. intros Ha Hb. by apply sgn_flip, ord_antisym. Qed.

Lemma ord_flip_total (a b : A) : Q a → Q b → 0 < ord a b → ord b a ≤ 0.
Proof. intros Ha Hb. pose proof (ord_flip a b Ha Hb). lia. Qed.

Lemma before_spec (x y : A) : JS.before comparefn x y = true ↔ ord x y < 0.
Proof. unfold JS.before. apply Z.ltb_lt. Qed.

Lemma before_false (x y : A) : JS.before comparefn x y = false ↔ 0 ≤ ord x y.
Proof. unfold JS.before. rewrite Z.ltb_ge. done. Qed.

#[local] Instance ranked_trans : Transitive ranked.
Proof. intros a b c (Ha & Hb & Hab) (_ & Hc & Hbc). split_and!; eauto. Qed.

#[local] Instance above_trans : Transitive above.
Proof.
  intros a b c (Ha & Hb & Hab) (_ & Hc & Hbc). split_and!; [done..|].
  pose proof (ord_flip a b Ha Hb). pose proof (ord_flip b c Hb Hc).
  pose proof (ord_flip a c Ha Hc).
  pose proof (ord_trans c b a Hc Hb Ha).
  pose proof (ord_trans a c b Ha Hc Hb).
  pose proof (ord_trans b a c Hb Ha Hc). lia.
Qed.

(** The two insertions commute. *)
Lemma insert_insert_behind (x y : A) (l : list A) :
  Q x → Q y → Forall Q l →
  JS.insert comparefn y (insert_behind comparefn x l)
  = insert_behind comparefn x (JS.insert comparefn y l).
Proof.
  intros Hx Hy. pose proof (ord_flip x y Hx Hy) as Hxy.
  induction 1 as [|z l Hz Hl IH].
  - repeat (simpl; unfold JS.before;
            match goal with
            | |- context [?a <? ?b] => destruct (Z.ltb_spec a b)
            end); done || lia.
  - pose proof (ord_flip x z Hx Hz). pose proof (ord_flip y z Hy Hz).
    pose proof (ord_trans y x z Hy Hx Hz).
    pose proof (ord_trans y z x Hy Hz Hx).
    pose proof (ord_trans x y z Hx Hy Hz).
    repeat (simpl; unfold JS.before;
            match goal with
            | |- context [?a <? ?b] => destruct (Z.ltb_spec a b)
            end); try (done || lia).
    by rewrite IH.
Qed.

(** Sorting an array with one more element at its end. *)
Lemma sort_snoc (l : list A) (x : A) :
  Forall Q l → Q x →
  JS.sort comparefn (l ++ [x]) = insert_behind comparefn x (JS.sort comparefn l).
Proof.
  intros Hl Hx. induction Hl as [|a l Ha Hl IH]; simpl; [done|].
  fold (JS.sort comparefn (l ++ [x])). fold (JS.sort comparefn l).
  rewrite IH. apply insert_insert_behind; [done..|]. by rewrite sort_perm.
Qed.

Lemma insertion_point_S (pivot : A) (a : list A) (fuel left right : nat) :
  JS.insertion_point comparefn (S fuel) pivot a left right
  = if (left <? right)%nat then
      let mid := (left + (right - left) / 2)%nat in
      match a !! mid with
      | Some y =>
          if JS.before comparefn pivot y
          then JS.insertion_point comparefn fuel pivot a left mid
          else JS.insertion_point comparefn fuel pivot a (S mid) right
      | None => left
      end
    else left.
Proof. reflexivity. Qed.

(** The binary search finds the first element that the pivot is before. *)
Lemma insertion_point_spec (pivot : A) (a : list A) (fuel left right : nat) :
  Q pivot → StronglySorted ranked a →
  (left ≤ right ≤ length a)%nat → (right - left < fuel)%nat →
  (∀ j y, (j < left)%nat → a !! j = Some y → JS.before comparefn pivot y = false) →
  (∀ j y, (right ≤ j)%nat → a !! j = Some y → JS.before comparefn pivot y = true) →
  let p := JS.insertion_point comparefn fuel pivot a left right in
  (p ≤ length a)%nat
  ∧ (∀ j y, (j < p)%nat → a !! j = Some y → JS.before comparefn pivot y = false)
  ∧ (∀ j y, (p ≤ j)%nat → a !! j = Some y → JS.before comparefn pivot y = true).
Proof.
  intros Hp Hs. revert left right.
  induction fuel as [|fuel IH]; intros left right Hlr Hfuel Hlo Hhi; [lia|].
  rewrite insertion_point_S. destruct (left <? right)%nat eqn:E.
  - apply Nat.ltb_lt in E.
    cbv zeta. set (mid := (left + (right - left) / 2)%nat).
    assert (Hmid : (left ≤ mid < right)%nat).
    { subst mid. pose proof (Nat.div_mod_eq (right - left) 2).
      pose proof (Nat.mod_upper_bound (right - left) 2). lia. }
    destruct (lookup_lt_is_Some_2 a mid) as [y Hy]; [lia|]. rewrite Hy.
    destruct (JS.before comparefn pivot y) eqn:Hb.
    + apply IH; [lia|lia|done|].
      intros j z Hj Hz. destruct (decide (j = mid)) as [->|Hne]; [congruence|].
      apply before_spec in Hb. apply before_spec.
      assert (Hyz : ranked y z).
      { apply (StronglySorted_lookup_lt ranked a mid j y z); [done..|lia]. }
      destruct Hyz as (HQy & HQz & Hyz).
      pose proof (ord_flip pivot y Hp HQy). pose proof (ord_flip pivot z Hp HQz).
      pose proof (ord_trans z pivot y HQz Hp HQy).
      pose proof (ord_trans y z pivot HQy HQz Hp). lia.
    + apply IH; [lia|lia| |done].
      intros j z Hj Hz. destruct (decide (j = mid)) as [->|Hne]; [congruence|].
      apply before_false in Hb. apply before_false.
      assert (Hzy : ranked z y).
      { apply (StronglySorted_lookup_lt ranked a j mid z y); [done..|lia]. }
      destruct Hzy as (HQz & HQy & Hzy).
      pose proof (ord_flip pivot y Hp HQy). pose proof (ord_flip pivot z Hp HQz).
      pose proof (ord_trans pivot z y Hp HQz HQy).
      pose proof (ord_trans z y pivot HQz HQy Hp). lia.
  - apply Nat.ltb_ge in E. assert (left = right) as -> by lia.
    split_and!; [lia|done..].
Qed.

Lemma insert_behind_at (x : A) (a : list A) (p : nat) :
  (∀ j y, (j < p)%nat → a !! j = Some y → JS.before comparefn x y = false) →
  (∀ y, a !! p = Some y → JS.before comparefn x y = true) →
  (p ≤ length a)%nat →
  insert_behind comparefn x a = take p a ++ x :: drop p a.
Proof.
  revert p. induction a as [|y a IH]; intros p Hlo Hhi Hlen; simpl in *.
  - by destruct p.
  - destruct p as [|p]; simpl.
    + by rewrite (Hhi y).
    + rewrite (Hlo 0%nat y) by (done || lia). f_equal.
      apply IH; [|done|lia].
      intros j z Hj Hz. apply (Hlo (S j)); [lia|done].
Qed.

Lemma binaryInsert_behind (a : list A) (pivot : A) :
  Q pivot → StronglySorted ranked a →
  JS.binaryInsert comparefn a pivot = insert_behind comparefn pivot a.
Proof.
  intros Hp Hs. unfold JS.binaryInsert. symmetry.
  destruct (insertion_point_spec pivot a (S (length a)) 0 (length a))
    as (Hlen & Hlo & Hhi); [done|done|lia|lia|lia| |].
  { intros j y Hj Hy. apply lookup_lt_Some in Hy. lia. }
  apply insert_behind_at; [done| |done].
  intros y Hy. by apply (Hhi _ y) in Hy.
Qed.

Lemma fold_binaryInsert (rest w : list A) :
  Forall Q w → Forall Q rest →
  fold_left (JS.binaryInsert comparefn) rest (JS.sort comparefn w)
  = JS.sort comparefn (w ++ rest).
Proof.
  intros Hw Hrest. revert w Hw.
  induction Hrest as [|x rest Hx Hrest IH]; intros w Hw; simpl.
  - by rewrite app_nil_r.
  - rewrite binaryInsert_behind, <-sort_snoc by
      (done || apply (sort_ranked comparefn Q); auto using ord_flip_total).
    rewrite IH by (apply Forall_app; auto). by rewrite <-app_assoc.
Qed.

(** An element after all the others goes to the end. *)
Lemma insert_back (x : A) (l : list A) :
  Forall (λ y, 0 < ord x y) l → JS.insert comparefn x l = l ++ [x].
Proof.
  induction 1 as [|y l Hy Hl IH]; simpl; [done|].
  replace (0 <? ord x y) with true by (symmetry; by apply Z.ltb_lt).
  by rewrite IH.
Qed.

(** Sorting a strictly descending array reverses it. *)
Lemma sort_descending (l : list A) :
  StronglySorted above l → JS.sort comparefn l = rev l.
Proof.
  induction 1 as [|x l Hs IH Hall]; simpl; [done|].
  fold (JS.sort comparefn l). rewrite IH. apply insert_back.
  apply Forall_forall. intros y Hy. rewrite <-Permutation_rev in Hy.
  rewrite Forall_forall in Hall. apply Hall in Hy as (HQx & HQy & Hyx).
  pose proof (ord_flip x y HQx HQy). lia.
Qed.

(** What the loop of [CountAndMakeRun] returns. *)
Lemma run_from_spec (descending : bool) (previous : A) (l run rest : list A) :
  JS.run_from comparefn descending previous l = (run, rest) →
  l = run ++ rest
  ∧ Sorted (λ p c, JS.before comparefn c p = descending) (previous :: run).
Proof.
  revert previous run rest.
  induction l as [|current l IH]; intros previous run rest; simpl.
  - intros [= <- <-]. split; [done|]. repeat constructor.
  - destruct (if descending then negb (JS.before comparefn current previous)
              else JS.before comparefn current previous) eqn:E.
    + intros [= <- <-]. split; [done|]. repeat constructor.
    + destruct (JS.run_from comparefn descending current l) as [run' rest'] eqn:Hr.
      intros [= <- <-]. destruct (IH _ _ _ Hr) as [-> Hsorted].
      split; [done|]. constructor; [done|]. constructor.
      destruct descending; [by apply negb_false_iff in E|done].
Qed.

(** V8 returns a permutation of the array, whatever the comparator. *)
Lemma binaryInsert_perm (a : list A) (pivot : A) :
  JS.binaryInsert comparefn a pivot ≡ₚ pivot :: a.
Proof.
  unfold JS.binaryInsert. by rewrite <-Permutation_middle, take_drop.
Qed.

Lemma fold_binaryInsert_perm (rest run : list A) :
  fold_left (JS.binaryInsert comparefn) rest run ≡ₚ run ++ rest.
Proof.
  revert run. induction rest as [|x rest IH]; intros run; simpl.
  - by rewrite app_nil_r.
  - by rewrite IH, binaryInsert_perm, <-Permutation_middle.
Qed.

Lemma sort_V8_perm (l : list A) : JS.sort_V8 comparefn l ≡ₚ l.
Proof.
  unfold JS.sort_V8.
  destruct (JS.countAndMakeRun comparefn l) as [run rest] eqn:Hr.
  rewrite fold_binaryInsert_perm. unfold JS.countAndMakeRun in Hr.
  destruct l as [|hi [|lo l]]; try (injection Hr as <- <-; by rewrite app_nil_r).
  destruct (JS.run_from comparefn (JS.before comparefn lo hi) lo l)
    as [run' rest'] eqn:Hrun.
  injection Hr as <- <-. apply run_from_spec in Hrun as [-> _].
  destruct (JS.before comparefn lo hi); [|done].
  change ((rev run' ++ [lo]) ++ [hi]) with (rev (hi :: lo :: run')).
  by rewrite <-Permutation_rev.
Qed.

Lemma countAndMakeRun_spec (l run rest : list A) :
  Forall Q l →
  JS.countAndMakeRun comparefn l = (run, rest) →
  ∃ w, l = w ++ rest ∧ run = JS.sort comparefn w.
Proof.
  intros HQ. unfold JS.countAndMakeRun.
  destruct l as [|hi [|lo l]]; try (intros [= <- <-]; eexists; split;
    [by rewrite app_nil_r|done]).
  destruct (JS.run_from comparefn (JS.before comparefn lo hi) lo l)
    as [run' rest'] eqn:Hr.
  intros [= <- <-]. apply run_from_spec in Hr as [-> Hsorted].
  exists (hi :: lo :: run'). split; [done|].
  assert (HQw : Forall Q (hi :: lo :: run')).
  { rewrite !app_comm_cons in HQ. by apply Forall_app in HQ as [? _]. }
  destruct (JS.before comparefn lo hi) eqn:Hd.
  - symmetry. apply sort_descending.
    apply Sorted_StronglySorted; [apply above_trans|].
    assert (Hs : Sorted (λ p c, JS.before comparefn c p = true) (hi :: lo :: run'))
      by (constructor; [done|by constructor]).
    clear Hsorted Hd. induction Hs as [|x w Hs IH Hhd]; [constructor|].
    apply Forall_cons in HQw as [Hx HQw]. constructor; [by apply IH|].
    destruct Hhd as [|y w' Hy]; constructor.
    apply Forall_cons in HQw as [HQy _]. apply before_spec in Hy. done.
  - symmetry. apply (sort_of_sorted comparefn Q).
    apply Sorted_StronglySorted; [apply ranked_trans|].
    assert (Hs : Sorted (λ p c, JS.before comparefn c p = false) (hi :: lo :: run'))
      by (constructor; [done|by constructor]).
    clear Hsorted Hd. induction Hs as [|x w Hs IH Hhd]; [constructor|].
    apply Forall_cons in HQw as [Hx HQw]. constructor; [by apply IH|].
    destruct Hhd as [|y w' Hy]; constructor.
    apply Forall_cons in HQw as [HQy _]. apply before_false in Hy.
    pose proof (ord_flip x y Hx HQy). split_and!; [done..|lia].
Qed.

(** V8 returns the array of [JS.sort]. *)
Lemma sort_V8_sort (l : list A) :
  Forall Q l → JS.sort_V8 comparefn l = JS.sort comparefn l.
Proof.
  intros HQ. unfold JS.sort_V8.
  destruct (JS.countAndMakeRun comparefn l) as [run rest] eqn:Hr.
  destruct (countAndMakeRun_spec _ _ _ HQ Hr) as (w & -> & ->).
  apply Forall_app in HQ as [Hw Hrest]. by apply fold_binaryInsert.
Qed.

End SortV8Facts.

(** Where [localeCompare] is an order and the items can be ordered, V8
    returns the array of [sortItems]. *)
Lemma sortItems_V8_sortItems lc (items : list Item) key dir :
  is_order lc → Forall (orderable key) items →
  sortItems_V8 lc items key dir = sortItems lc items key dir.
Proof.
  intros Hlc Hitems. unfold sortItems_V8, sortItems.
  apply (sort_V8_sort _ (orderable key)); [| |done].
  - intros a b c. by apply compareItems_trans.
  - intros a b. by apply compareItems_antisym.
Qed.

(** ** [sortItems] *)

Section SortItemsFacts.
Variable localeCompare : string → string → Z.

(** Two items with the same value under the sort key are never ranked. *)
Lemma compareItems_equal_keys key dir (a b : Item) :
  (∀ x, localeCompare x x = 0) →
  prop a key = prop b key →
  JS.sortOrder (compareItems localeCompare key dir a b) = 0.
Proof.
  intros Hrefl Heq. unfold compareItems. rewrite Heq.
  destruct (prop b key) as [x|[z|]]; simpl; [rewrite Hrefl; lia| |done].
  destruct dir; lia.
Qed.



(** The array that V8 returns for [unordered], by name. *)
Example sortItems_V8_unordered :
  map PokemonListItem.name (sortItems_V8 codeUnitCompare unordered key_id asc)
  = ["bulbasaur"; "ivysaur-b"; "charmeleon"; "charizard"; "squirtle";
     "missingno"; "ivysaur-a"]
  ∧ map PokemonListItem.id (sortItems_V8 codeUnitCompare unordered key_id asc)
    = [JS.Fin 1; JS.Fin 2; JS.Fin 5; JS.Fin 6; JS.Fin 7; JS.NaN; JS.Fin 2].
Proof. by vm_compute. Qed.

(** C10. The output of [sortItems] is a permutation of its input: the same
    items with the same multiplicities, hence the same length; nothing is
    added, dropped or changed. *)
Theorem sortItems_permutation (items : list Item) (key : SortKey) (dir : SortDir) :
  sortItems localeCompare items key dir ≡ₚ items
  ∧ length (sortItems localeCompare items key dir) = length items
  ∧ ∀ p, p ∈ sortItems localeCompare items key dir ↔ p ∈ items.
Proof.
  unfold sortItems. split_and!.
  - apply sort_perm.
  - apply sort_length.
  - intros p. by rewrite sort_perm.
Qed.

(** C9. [sortItems] returns a new array and leaves its argument as it was:
    called on the array at reference [items] of a heap [h], it returns a
    reference [r] different from [items] (not allocated in [h]) that holds
    the sorted contents, while [items], like every other array of [h],
    holds the same elements in the same order as before. *)
Theorem sortItems_input_unmodified (h : gmap ref (list Item)) (items : ref)
    (contents : list Item) (key : SortKey) (dir : SortDir) :
  h !! items = Some contents →
  ∃ h' r,
    sortItems_ref localeCompare h items key dir = Some (h', r)
    ∧ r ≠ items
    ∧ h !! r = None
    ∧ h' !! r = Some (sortItems localeCompare contents key dir)
    ∧ h' !! items = Some contents
    ∧ ∀ a, a ≠ r → h' !! a = h !! a.
Proof.
  intros Hitems. unfold sortItems_ref, spread, sort_in_place. rewrite Hitems.
  set (r := fresh (dom h)).
  assert (Hfresh : h !! r = None) by (apply not_elem_of_dom, is_fresh).
  rewrite lookup_insert_eq.
  eexists _, r. split; [done|].
  assert (r ≠ items) by congruence.
  split_and!; [done|done| | |].
  - by rewrite lookup_insert_eq.
  - by rewrite !lookup_insert_ne.
  - intros a Ha. by rewrite !lookup_insert_ne.
Qed.

End SortItemsFacts.

(** ** Strings *)

Lemma truthy_false (s : string) : JS.truthy s = false ↔ s = "".
Proof. by destruct s. Qed.

Lemma toLowerCase_empty (s : string) : JS.toLowerCase s = "" ↔ s = "".
Proof. by destruct s. Qed.

Lemma append_String (c : ascii) (s t : string) :
  String c s +:+ t = String c (s +:+ t).
Proof. reflexivity. Qed.

Lemma append_empty (t : string) : "" +:+ t = t.
Proof. reflexivity. Qed.

Lemma startsWith_spec (s pre : string) :
  JS.startsWith s pre = true ↔ ∃ b, s = pre +:+ b.
Proof.
  revert s. induction pre as [|a pre IH]; intros s; simpl.
  - split; [by exists s|done].
  - setoid_rewrite append_String. destruct s as [|c s].
    + split; [done|]. by intros [b ?].
    + destruct (Ascii.eqb_spec a c) as [->|Hne].
      * rewrite IH. split; intros [b Hb]; exists b; congruence.
      * split; [done|]. intros [b Hb]. congruence.
Qed.

Lemma includes_spec (s sub : string) :
  JS.includes s sub = true ↔ contains s sub.
Proof.
  unfold contains. induction s as [|c s IH]; simpl.
  - rewrite orb_false_r, startsWith_spec. split.
    + intros [b Hb]. by exists "", b.
    + intros ([|? a] & b & Hb); [by exists b|done].
  - rewrite orb_true_iff, IH, startsWith_spec. split.
    + intros [[b Hb]|(a & b & Hb)].
      * by exists "", b.
      * exists (String c a), b. by rewrite append_String, Hb.
    + intros ([|c' a] & b & Hb).
      * left. by exists b.
      * right. exists a, b. rewrite append_String in Hb. congruence.
Qed.

#[global] Instance contains_dec (s sub : string) : Decision (contains s sub).
Proof.
  refine (cast_if (decide (JS.includes s sub = true))); by rewrite <-includes_spec.
Defined.

Lemma lower_numeric_char (c : ascii) :
  numeric_char (JS.lower c) = true → JS.lower c = c.
Proof. destruct c as [[] [] [] [] [] [] [] []]; vm_compute; congruence. Qed.

Lemma toLowerCase_numeric (s t : string) :
  numeric s = true → JS.toLowerCase t = s → t = s.
Proof.
  revert t. induction s as [|c s IH]; intros [|c' t]; simpl; try done.
  intros [Hc Hs]%andb_true_iff [= Hl Ht]. f_equal.
  - rewrite <-Hl in Hc. by rewrite <-(lower_numeric_char c').
  - by apply IH.
Qed.

Lemma toLowerCase_numeric_id (s : string) :
  numeric s = true → JS.toLowerCase s = s.
Proof.
  induction s as [|c s IH]; simpl; [done|].
  intros [Hc Hs]%andb_true_iff. rewrite IH by done. f_equal.
  revert Hc. destruct c as [[] [] [] [] [] [] [] []]; vm_compute; congruence.
Qed.

Lemma string_of_uint_numeric (u : Decimal.uint) :
  numeric (NilEmpty.string_of_uint u) = true.
Proof. induction u; simpl; auto. Qed.

Lemma String_integer_numeric (z : Z) : numeric (JS.String_ (JS.Fin z)) = true.
Proof.
  unfold JS.String_, NilZero.string_of_int, NilZero.string_of_uint.
  destruct (Z.to_int z) as [u|u]; destruct u; simpl; auto using string_of_uint_numeric.
Qed.

(** An integer identifier equals the lower-cased query exactly when it
    equals the query. *)
Lemma String_integer_lower (n : JS.number) (t : string) :
  is_integer n = true →
  JS.String_ n = JS.toLowerCase t ↔ JS.String_ n = t.
Proof.
  destruct n as [z|]; [intros _|done].
  pose proof (String_integer_numeric z) as Hnum. split.
  - intros Heq. symmetry. by apply toLowerCase_numeric.
  - intros <-. by rewrite toLowerCase_numeric_id.
Qed.

(** ** [filterItems] *)

(** What [filterItems] keeps for the trimmed, lower-cased query [s]. *)
Lemma filterItems_keeps (items : list Item) (s : string) :
  List.filter
    (fun p => JS.includes (PokemonListItem.name p) s
              || bool_decide (JS.String_ (PokemonListItem.id p) = s)) items
  = filter (λ p, contains (PokemonListItem.name p) s
                 ∨ JS.String_ (PokemonListItem.id p) = s) items.
Proof.
  induction items as [|p items IH]; simpl; [done|].
  rewrite filter_cons, IH.
  destruct (JS.includes (PokemonListItem.name p) s) eqn:Hinc; simpl.
  - apply includes_spec in Hinc. by rewrite decide_True by auto.
  - assert (¬ contains (PokemonListItem.name p) s)
      by (rewrite <-includes_spec; congruence).
    case_bool_decide; [by rewrite decide_True by auto|].
    by rewrite decide_False by tauto.
Qed.

(** C1 (code bug).  With [t] the trimmed query and [s] its lower-case
    form: if [t] is empty, [filterItems] returns the input list itself;
    else it keeps, in their order, exactly the items whose name has [s] as
    a substring or whose identifier prints as [s].  The query is
    lower-cased and the name is not.  For an item with an integer
    identifier and a name already in lower case that is the filter of the
    claim: the name contains the query when case is ignored, or the
    identifier's decimal string is the trimmed query.  An item with a
    capital letter in its name is dropped for the query ["bulb"], and for
    its own name as the query. *)
Theorem filterItems_spec (items : list Item) (q : string) :
  Forall (λ p, JS.String_exact (PokemonListItem.id p) = true) items →
  let t := JS.trim q in
  let s := JS.toLowerCase t in
  filterItems items q =
    (if decide (t = "") then items
     else filter (λ p, contains (PokemonListItem.name p) s
                       ∨ JS.String_ (PokemonListItem.id p) = s) items)
  ∧ (t = "" ↔ s = "")
  ∧ (∀ p : Item,
      p ∈ items →
      is_integer (PokemonListItem.id p) = true →
      JS.toLowerCase (PokemonListItem.name p) = PokemonListItem.name p →
      (contains (PokemonListItem.name p) s ∨ JS.String_ (PokemonListItem.id p) = s)
      ↔ (contains_ci (PokemonListItem.name p) t ∨ JS.String_ (PokemonListItem.id p) = t))
  ∧ (contains_ci (PokemonListItem.name capitalised) "bulb"
     ∧ filterItems [capitalised] "bulb" = []
     ∧ filterItems [capitalised] "Bulbasaur" = []
     ∧ filterItems [capitalised] "ulb" = [capitalised]).
Proof.
  intros _ t s. split_and!.
  - unfold filterItems. fold t. fold s.
    destruct (decide (t = "")) as [Ht|Ht].
    + subst s. by rewrite Ht.
    + destruct (JS.truthy s) eqn:Hs; simpl.
      * apply filterItems_keeps.
      * apply truthy_false in Hs. destruct Ht. by apply toLowerCase_empty.
  - subst s. by rewrite toLowerCase_empty.
  - intros p _ Hid Hname. unfold contains_ci. rewrite Hname.
    subst s. by rewrite String_integer_lower.
  - by exists "", "asaur".
  - by vm_compute.
  - by vm_compute.
  - by vm_compute.
Qed.

(** C1 as written fails on a name with a capital letter: ["Bulbasaur"]
    contains the query ["bulb"] when case is ignored, and [filterItems]
    drops the item. *)
Lemma filterItems_name_case_counterexample :
  ¬ ∀ (items : list Item) (q : string) (p : Item),
      JS.toLowerCase (JS.trim q) ≠ "" →
      (p ∈ filterItems items q ↔
       p ∈ items ∧ (contains_ci (PokemonListItem.name p) (JS.trim q)
                    ∨ JS.String_ (PokemonListItem.id p) = JS.trim q)).
Proof.
  intros H.
  specialize (H [capitalised] "bulb" capitalised). simpl in H.
  destruct H as [_ H]; [done|].
  assert (Hin : capitalised ∈ filterItems [capitalised] "bulb").
  { apply H. split; [apply list_elem_of_here|]. left. by exists "", "asaur". }
  vm_compute in Hin. by apply elem_of_nil in Hin.
Qed.

(** The assertions of [runRuntimeTests] on [filterItems]. *)
Example filterItems_runtime_tests :
  length (filterItems sample "bulb") = 1%nat
  ∧ length (filterItems sample "1") = 1%nat
  ∧ length (filterItems sample "") = 3%nat.
Proof. by vm_compute. Qed.

(** The query is trimmed of the blanks of the host, the no-break space
    among them, and lower-cased. *)
Example filterItems_query_normalised :
  map PokemonListItem.name
      (filterItems sample (String "160" (String "009" " BULB  ")))
  = ["bulbasaur"]
  ∧ filterItems sample (String "160" (String "009" "  ")) = sample.
Proof. by vm_compute. Qed.

(** ** The type filter of the gallery *)

Lemma includes_label_spec (arr : list string) (t : string) :
  includes_label arr t = true ↔ t ∈ arr.
Proof.
  unfold includes_label. rewrite existsb_exists, list_elem_of_In. split.
  - intros (x & Hx & Heq). apply String.eqb_eq in Heq. by subst.
  - intros Hin. exists t. by rewrite String.eqb_refl.
Qed.

Lemma every_includes_spec (arr selected : list string) :
  forallb (fun t => includes_label arr t) selected = true ↔ selected ⊆ arr.
Proof.
  rewrite forallb_forall. unfold subseteq, list_subseteq.
  split; intros H t Ht; apply includes_label_spec, H; by apply list_elem_of_In.
Qed.

(** C7. With no label selected the gallery shows all items; otherwise it
    keeps, in their order, exactly the items whose label list contains
    every selected label (all of them, not one of them). *)
Theorem GalleryView_filtered_spec (items : list Item) (selected : list string) :
  GalleryView_filtered items selected =
    if decide (selected = []) then items
    else filter (λ p, selected ⊆ PokemonListItem.types p) items.
Proof.
  unfold GalleryView_filtered.
  destruct selected as [|t selected]; [done|].
  rewrite decide_False by done. simpl (_ =? _)%nat. cbv iota.
  induction items as [|p items IH]; [done|].
  rewrite filter_cons. cbn [List.filter]. rewrite IH.
  destruct (forallb _ (t :: selected)) eqn:E.
  - apply every_includes_spec in E. by rewrite decide_True.
  - rewrite decide_False; [done|]. rewrite <-every_includes_spec. congruence.
Qed.

(** The gallery on the fallback list: nothing selected, and ["grass"] with
    ["poison"] selected. *)
Example GalleryView_filtered_examples :
  GalleryView_filtered mock [] = mock
  ∧ map PokemonListItem.name (GalleryView_filtered mock ["grass"; "poison"])
    = ["bulbasaur"]
  ∧ GalleryView_filtered mock ["grass"; "fire"] = [].
Proof. by vm_compute. Qed.

(** ** Previous and next in the detail view *)

Lemma strict_eq_true (v x : JS.number) :
  JS.strict_eq v x = true ↔ v = x ∧ is_integer x = true.
Proof.
  destruct v as [a|], x as [b|]; simpl; try (split; [done|by intros [? ?]]).
  rewrite Z.eqb_eq. split; [by intros ->|]. by intros [[= ->] _].
Qed.

Lemma indexOf_from_absent (l : list JS.number) (x : JS.number) (k : Z) :
  x ∉ l ∨ is_integer x = false → JS.indexOf_from l x k = -1.
Proof.
  intros Habs. revert k. induction l as [|y l IH]; intros k; simpl; [done|].
  destruct (JS.strict_eq y x) eqn:E.
  - apply strict_eq_true in E as [-> Hint].
    destruct Habs as [Hnin|Hnan]; [|congruence].
    destruct Hnin. apply list_elem_of_here.
  - apply IH. destruct Habs as [Hnin|]; [left|by right].
    intros Hin. apply Hnin. by apply list_elem_of_further.
Qed.

Lemma indexOf_from_first (pre post : list JS.number) (x : JS.number) (k : Z) :
  is_integer x = true → x ∉ pre →
  JS.indexOf_from (pre ++ x :: post) x k = k + Z.of_nat (length pre).
Proof.
  intros Hint. revert k. induction pre as [|y pre IH]; intros k Hnin; simpl.
  - assert (JS.strict_eq x x = true) as -> by by apply strict_eq_true.
    lia.
  - apply not_elem_of_cons in Hnin as [Hne Hnin].
    destruct (JS.strict_eq y x) eqn:E.
    + apply strict_eq_true in E as [-> _]. done.
    + rewrite IH by done. lia.
Qed.

Lemma lookup_before_middle {A} (pre post : list A) (x : A) :
  pre ≠ [] → (pre ++ x :: post) !! (length pre - 1)%nat = last pre.
Proof.
  intros Hne. destruct (exists_last Hne) as (pre' & y & ->).
  rewrite last_snoc, length_app, <-(assoc_L (++)). simpl.
  replace (length pre' + 1 - 1)%nat with (length pre' + 0)%nat by lia.
  by rewrite lookup_app_r, Nat.add_0_r, Nat.sub_diag by lia.
Qed.

Lemma lookup_after_middle {A} (pre post : list A) (x : A) :
  (pre ++ x :: post) !! (length pre + 1)%nat = head post.
Proof.
  rewrite lookup_app_r by lia.
  replace (length pre + 1 - length pre)%nat with 1%nat by lia.
  by destruct post.
Qed.

Lemma indexOf_from_found (l : list JS.number) (x : JS.number) (k : Z) :
  JS.indexOf_from l x k ≠ -1 →
  ∃ pre post, l = pre ++ x :: post ∧ (x ∉ pre) ∧ is_integer x = true
              ∧ JS.indexOf_from l x k = k + Z.of_nat (length pre).
Proof.
  revert k. induction l as [|y l IH]; intros k; simpl; [done|].
  destruct (JS.strict_eq y x) eqn:E.
  - apply strict_eq_true in E as [-> Hint]. intros _.
    exists [], l. split_and!; [done|apply not_elem_of_nil|done|simpl; lia].
  - intros Hne. destruct (IH _ Hne) as (pre & post & -> & Hnin & Hint & Hidx).
    exists (y :: pre), post. split_and!; [done| |done|simpl length; lia].
    apply not_elem_of_cons. split; [|done].
    intros ->. rewrite <-not_true_iff_false, strict_eq_true in E. tauto.
Qed.

(** Where the requested identifier first occurs, previous and next are
    its neighbours. *)
Lemma DetailView_neighbours (items : list Item) (pid : JS.number)
    (pre post : list JS.number) :
  is_integer pid = true →
  DetailView_order items = pre ++ pid :: post → pid ∉ pre →
  DetailView_prevId items pid = last pre
  ∧ DetailView_nextId items pid = head post.
Proof.
  intros Hint Horder Hnin.
  unfold DetailView_prevId, DetailView_nextId.
  assert (Hidx : JS.indexOf (DetailView_order items) pid = Z.of_nat (length pre)).
  { unfold JS.indexOf. rewrite Horder, indexOf_from_first by done. lia. }
  rewrite Hidx, Horder. unfold JS.get. split.
  - destruct pre as [|y pre]; [done|].
    replace (0 <? Z.of_nat (length (y :: pre))) with true
      by (symmetry; apply Z.ltb_lt; simpl length; lia).
    replace (Z.of_nat (length (y :: pre)) - 1 <? 0) with false
      by (symmetry; apply Z.ltb_ge; simpl length; lia).
    replace (Z.to_nat (Z.of_nat (length (y :: pre)) - 1))
      with (length (y :: pre) - 1)%nat by lia.
    by apply lookup_before_middle.
  - replace (0 <=? Z.of_nat (length pre)) with true
      by (symmetry; apply Z.leb_le; lia).
    rewrite length_app. simpl length.
    destruct post as [|q post]; simpl length.
    + replace (Z.of_nat (length pre) <? Z.of_nat (length pre + 1) - 1)
        with false by (symmetry; apply Z.ltb_ge; lia). done.
    + replace (Z.of_nat (length pre) <? Z.of_nat (length pre + S (S (length post))) - 1)
        with true by (symmetry; apply Z.ltb_lt; lia).
      replace (Z.of_nat (length pre) + 1 <? 0) with false
        by (symmetry; apply Z.ltb_ge; lia).
      replace (Z.to_nat (Z.of_nat (length pre) + 1))
        with (length pre + 1)%nat by lia.
      by rewrite lookup_after_middle.
Qed.

(** A previous or next identifier exists only for a requested identifier
    that is found. *)
Lemma DetailView_found (items : list Item) (pid : JS.number) :
  is_Some (DetailView_prevId items pid) ∨ is_Some (DetailView_nextId items pid) →
  ∃ pre post, DetailView_order items = pre ++ pid :: post
              ∧ (pid ∉ pre) ∧ is_integer pid = true.
Proof.
  intros Hsome.
  destruct (decide (JS.indexOf (DetailView_order items) pid = -1)) as [Heq|Hne].
  - unfold DetailView_prevId, DetailView_nextId in Hsome. rewrite Heq in Hsome.
    simpl in Hsome. destruct Hsome as [[? ?]|[? ?]]; done.
  - destruct (indexOf_from_found _ _ _ Hne) as (pre & post & ? & ? & ? & _).
    by exists pre, post.
Qed.

Lemma last_map {A B} (f : A → B) (l : list A) : last (map f l) = f <$> last l.
Proof.
  induction l as [|x l IH]; [done|]. destruct l as [|y l]; [done|].
  exact IH.
Qed.

Lemma head_map {A B} (f : A → B) (l : list A) : head (map f l) = f <$> head l.
Proof. by destruct l. Qed.


(** ** The light list *)

Lemma split_nonempty (sep : ascii) (s : string) : JS.split sep s ≠ [].
Proof.
  induction s as [|c s IH]; simpl; [done|].
  destruct (Ascii.eqb c sep); [done|]. by destruct (JS.split sep s).
Qed.

Lemma split_append (sep : ascii) (a b : string) :
  JS.split sep (a +:+ String sep b) = JS.split sep a ++ JS.split sep b.
Proof.
  induction a as [|c a IH].
  - rewrite append_empty. simpl. by rewrite Ascii.eqb_refl.
  - rewrite append_String. simpl. rewrite IH.
    destruct (Ascii.eqb c sep); [done|].
    pose proof (split_nonempty sep a). by destruct (JS.split sep a).
Qed.

Lemma split_free (sep : ascii) (s : string) :
  JS.free_of sep s = true → JS.split sep s = [s].
Proof.
  induction s as [|c s IH]; simpl; [done|].
  intros [Hc Hs]%andb_true_iff. apply negb_true_iff in Hc.
  by rewrite Hc, IH.
Qed.

Lemma List_filter_app {A} (f : A → bool) (l k : list A) :
  List.filter f (l ++ k) = List.filter f l ++ List.filter f k.
Proof.
  induction l as [|x l IH]; simpl; [done|]. rewrite IH. by destruct (f x).
Qed.

(** The trailing path segment of a URL that ends in [/seg] or [/seg/]. *)
Lemma trailingSegment_spec (prefix seg : string) :
  seg ≠ "" → JS.free_of "/" seg = true →
  trailingSegment (prefix +:+ "/" +:+ seg) = Some seg
  ∧ trailingSegment (prefix +:+ "/" +:+ seg +:+ "/") = Some seg.
Proof.
  intros Hne Hfree. unfold trailingSegment, JS.pop.
  assert (Hseg : List.filter JS.truthy [seg] = [seg]) by by destruct seg.
  split.
  - change (prefix +:+ "/" +:+ seg) with (prefix +:+ String "/" seg).
    rewrite split_append, List_filter_app, (split_free _ seg), Hseg by done.
    apply last_snoc.
  - change (prefix +:+ "/" +:+ seg +:+ "/")
      with (prefix +:+ String "/" (seg +:+ String "/" "")).
    rewrite !split_append, !List_filter_app, (split_free _ seg), Hseg by done.
    change (List.filter JS.truthy (JS.split "/" "")) with (@nil string).
    rewrite app_nil_r. apply last_snoc.
Qed.

Lemma le_trans (a b c : JS.number) :
  JS.le a b = true → JS.le b c = true → JS.le a c = true.
Proof.
  destruct a, b, c; simpl; try done. rewrite !Z.leb_le. lia.
Qed.

(** ** The worker pool *)

Section PoolFacts.
Local Open Scope nat_scope.
Local Arguments seq : simpl never.

Lemma claim_cases (s : pool) :
  (length (light s) ≤ i s ∧ claim s = (Returned, s))
  ∨ (∃ p, light s !! i s = Some p ∧ i s < length (light s) ∧
          claim s = (Awaiting (i s),
                     mkPool (light s) (S (i s)) (workers s)
                            (issued s ++ [(i s, PokemonListItem.id p)])
                            (S (inflight s)) (settled s))).
Proof.
  unfold claim. destruct (Nat.leb_spec (length (light s)) (i s)) as [Hle|Hlt].
  - by left.
  - right. destruct (lookup_lt_is_Some_2 (light s) (i s) Hlt) as [p Hp].
    exists p. by rewrite Hp.
Qed.

Lemma answer_of_None (log : list (nat * option PokemonDetail.t)) (k : nat) :
  k ∉ map fst log → answer_of log k = None.
Proof.
  induction log as [|[j r] log IH]; simpl; [done|].
  intros [Hne Hnin]%not_elem_of_cons. rewrite decide_False by done. by apply IH.
Qed.

Lemma answer_of_snoc (log : list (nat * option PokemonDetail.t)) (j k : nat)
    (r : option PokemonDetail.t) :
  answer_of (log ++ [(j, r)]) k =
    match answer_of log k with
    | Some a => Some a
    | None => if decide (j = k) then Some r else None
    end.
Proof.
  induction log as [|[j' r'] log IH]; simpl; [done|].
  by destruct (decide (j' = k)).
Qed.

Lemma pool_inv_init (light0 : list Item) :
  pool_inv light0 (mkPool light0 0 [] [] 0 []).
Proof.
  split; simpl; try done; try lia.
  - intros k n Hin. by apply elem_of_nil in Hin.
  - intros Hin. by apply elem_of_nil in Hin.
Qed.

Lemma pool_inv_of_perm light0 aw aw' (ret ret' : Prop) s :
  aw ≡ₚ aw' → (ret' → ret) →
  pool_inv_of light0 aw ret s → pool_inv_of light0 aw' ret' s.
Proof.
  intros Hperm Hret [H1 H2 H3 H4 H5 H6 H7 H8]. split; try done.
  - by rewrite <-Hperm.
  - by rewrite <-Hperm.
  - auto.
Qed.

(** The invariant does not look at the worker list. *)
Lemma pool_inv_of_workers light0 aw (ret : Prop) s ws :
  pool_inv_of light0 aw ret s →
  pool_inv_of light0 aw ret
    (mkPool (light s) (i s) ws (issued s) (inflight s) (settled s)).
Proof. by intros []. Qed.

(** [claim] keeps the invariant: the claimed index joins those in flight. *)
Lemma pool_inv_of_claim light0 aw (ret : Prop) s w s' :
  pool_inv_of light0 aw ret s → claim s = (w, s') →
  pool_inv_of light0 (aw ++ awaited_by w) (ret ∨ w = Returned) s'
  ∧ light s' = light s ∧ workers s' = workers s ∧ settled s' = settled s.
Proof.
  intros [H1 H2 H3 H4 H5 H6 H7 H8] Hclaim.
  destruct (claim_cases s) as [[Hle Heq]|(p & Hp & Hlt & Heq)];
    rewrite Heq in Hclaim; injection Hclaim as <- <-; (split; [|done]).
  - simpl. rewrite app_nil_r. split; try done. intros [?|_]; [auto|lia].
  - assert (Hp0 : light0 !! i s = Some p).
    { destruct (lookup_lt_is_Some_2 light0 (i s)) as [p0 Hp0]; [lia|].
      rewrite (H7 _ _ Hp0) in Hp.
      rewrite answer_of_None in Hp; [simpl in Hp; congruence|].
      intros Hin. assert (Hin' : i s ∈ seq 0 (i s)).
      { rewrite <-H6. apply elem_of_app. by right. }
      apply elem_of_seq in Hin'. lia. }
    split; simpl; try done.
    + lia.
    + rewrite length_app. simpl. lia.
    + rewrite map_app, H4, seq_S. done.
    + intros k n [Hin|Hin]%elem_of_app; [by apply H5|].
      apply list_elem_of_singleton in Hin as [= -> ->]. by rewrite Hp0.
    + rewrite seq_S, <-H6. simpl.
      rewrite <-!(assoc_L (++)). f_equiv. apply Permutation_app_comm.
    + intros [Hr|[=]]. specialize (H8 Hr). lia.
Qed.

(** The answer to the request for [idx] is delivered. *)
Lemma pool_inv_of_settle light0 aw (ret : Prop) s idx r :
  pool_inv_of light0 (idx :: aw) ret s →
  pool_inv_of light0 aw ret
    (mkPool
       (match r, light s !! idx with
        | Some d, Some p => <[idx := enrich p d]> (light s)
        | _, _ => light s
        end)
       (i s) (workers s) (issued s) (pred (inflight s))
       (settled s ++ [(idx, r)])).
Proof.
  intros [H1 H2 H3 H4 H5 H6 H7 H8].
  assert (Hnodup : NoDup (idx :: aw ++ map fst (settled s))).
  { simpl in H6. rewrite H6. apply NoDup_seq. }
  apply NoDup_cons in Hnodup as [Hfresh _].
  assert (Hnot : idx ∉ map fst (settled s)).
  { intros Hin. apply Hfresh, elem_of_app. by right. }
  split; simpl; try done.
  - destruct r as [d|]; [|done]. destruct (light s !! idx); [|done].
    by rewrite length_insert.
  - rewrite H3. done.
  - rewrite map_app. simpl. rewrite <-H6.
    rewrite (assoc_L (++)). rewrite <-Permutation_cons_append. done.
  - intros k p Hp. rewrite answer_of_snoc.
    specialize (H7 k p Hp).
    destruct (decide (idx = k)) as [->|Hne].
    + rewrite answer_of_None in H7 |- * by done. simpl in H7.
      destruct r as [d|]; [|done]. rewrite H7. simpl.
      apply list_lookup_insert_eq. by eapply lookup_lt_Some.
    + assert (Hk : match r, light s !! idx with
                   | Some d, Some p => <[idx := enrich p d]> (light s)
                   | _, _ => light s
                   end !! k = light s !! k).
      { destruct r as [d|]; [|done]. destruct (light s !! idx); [|done].
        by apply list_lookup_insert_ne. }
      rewrite Hk, H7. by destruct (answer_of (settled s) k).
Qed.
(** A worker that waits is resumed. *)
Lemma pool_inv_resume light0 s w r s' :
  pool_inv light0 s → resume s w r = Some s' →
  pool_inv light0 s'
  ∧ length (workers s') = length (workers s)
  ∧ length (settled s') = S (length (settled s)).
Proof.
  unfold pool_inv, resume. intros Hinv Hres.
  destruct (workers s !! w) as [[idx|]|] eqn:Hw; try done.
  set (light' := match r, light s !! idx with
                 | Some d, Some p => <[idx := enrich p d]> (light s)
                 | _, _ => light s
                 end) in *.
  set (s1 := mkPool light' (i s) (workers s) (issued s) (pred (inflight s))
                    (settled s ++ [(idx, r)])) in *.
  destruct (claim s1) as [wk s2] eqn:Hclaim.
  injection Hres as <-. simpl.
  pose proof (take_drop_middle _ _ _ Hw) as Hsplit.
  set (rest := (take w (workers s) ++ drop (S w) (workers s)) ≫= awaited_by).
  assert (Haw : awaited s ≡ₚ idx :: rest).
  { unfold awaited, rest. rewrite <-Hsplit at 1.
    rewrite !bind_app, bind_cons. simpl.
    by rewrite Permutation_middle. }
  apply (pool_inv_of_perm _ _ _ _ (Returned ∈ workers s) _ Haw) in Hinv; [|done].
  apply (pool_inv_of_settle _ _ _ _ _ r) in Hinv. fold light' in Hinv. fold s1 in Hinv.
  destruct (pool_inv_of_claim _ _ _ _ _ _ Hinv Hclaim) as (Hinv2 & Hl & Hws & Hst).
  assert (Hlt : w < length (workers s)) by by eapply lookup_lt_Some.
  split_and!; simpl.
  2: { rewrite length_insert. by rewrite Hws. }
  2: { rewrite Hst. simpl. rewrite length_app. simpl. lia. }
  destruct Hinv2 as [H1 H2 H3 H4 H5 H6 H7 H8].
  assert (Haw' : awaited
            (mkPool (light s2) (i s2) (<[w:=wk]> (workers s2)) (issued s2)
                    (inflight s2) (settled s2)) ≡ₚ rest ++ awaited_by wk).
  { unfold awaited, rest. simpl. rewrite Hws. simpl.
    rewrite insert_take_drop by done.
    rewrite !bind_app, bind_cons.
    rewrite <-(assoc_L (++)). f_equiv. apply Permutation_app_comm. }
  split; simpl; try done.
  - by rewrite Haw'.
  - by rewrite Haw'.
  - intros Hin. apply H8. rewrite Hws in Hin. simpl in Hin.
    rewrite insert_take_drop in Hin by done.
    apply elem_of_app in Hin as [Hin|Hin].
    + left. by eapply subseteq_take.
    + apply elem_of_cons in Hin as [Hin|Hin]; [by right|].
      left. by eapply subseteq_drop.
Qed.

Lemma pool_inv_run light0 sched : ∀ s s',
  pool_inv light0 s → run s sched = Some s' →
  pool_inv light0 s'
  ∧ length (workers s') = length (workers s)
  ∧ length (settled s') = length (settled s) + length sched.
Proof.
  induction sched as [|[w r] sched IH]; intros s s' Hinv Hrun; simpl in *.
  - injection Hrun as <-. split_and!; [done|done|lia].
  - destruct (resume s w r) as [s1|] eqn:Hres; [|done].
    destruct (pool_inv_resume _ _ _ _ _ Hinv Hres) as (Hinv1 & Hw1 & Hs1).
    destruct (IH _ _ Hinv1 Hrun) as (Hinv' & Hw' & Hs').
    split_and!; [done|lia|lia].
Qed.

(** [spawn] claims one index per worker. *)
Lemma pool_inv_spawn light0 m : ∀ s,
  pool_inv light0 s →
  pool_inv light0 (spawn m s)
  ∧ light (spawn m s) = light s
  ∧ settled (spawn m s) = settled s
  ∧ (i s + m ≤ length (light s) →
     workers (spawn m s) = workers s ++ map Awaiting (seq (i s) m)
     ∧ i (spawn m s) = i s + m).
Proof.
  induction m as [|m IH]; intros s Hinv; simpl.
  - split_and!; try done. intros _. by rewrite app_nil_r, Nat.add_0_r.
  - destruct (claim s) as [w s1] eqn:Hclaim.
    destruct (pool_inv_of_claim _ _ _ _ _ _ Hinv Hclaim) as (Hinv1 & Hl & Hws & Hst).
    set (s2 := mkPool (light s1) (i s1) (workers s1 ++ [w]) (issued s1)
                      (inflight s1) (settled s1)).
    assert (Hinv2 : pool_inv light0 s2).
    { unfold pool_inv.
      eapply pool_inv_of_perm; [| |exact (pool_inv_of_workers _ _ _ _ _ Hinv1)].
      - unfold awaited. simpl. rewrite Hws, bind_app, bind_cons. simpl.
        by rewrite app_nil_r.
      - simpl. rewrite Hws. intros [Hin|Hin]%elem_of_app; [by left|].
        right. by apply list_elem_of_singleton in Hin. }
    destruct (IH s2 Hinv2) as (Hinv3 & Hl3 & Hst3 & Hexp).
    split_and!; [done|by rewrite Hl3|by rewrite Hst3|].
    intros Hle.
    destruct (claim_cases s) as [[Hge _]|(p & Hp & Hlt & Heq)]; [lia|].
    rewrite Heq in Hclaim. injection Hclaim as <- <-.
    destruct Hexp as [Hws' Hi']; [simpl; lia|].
    rewrite Hws', Hi'. simpl. rewrite <-(assoc_L (++)). simpl.
    split; [done|lia].
Qed.

Lemma start_spec (light0 : list Item) :
  pool_inv light0 (start light0)
  ∧ light (start light0) = light0
  ∧ settled (start light0) = []
  ∧ workers (start light0)
    = map Awaiting (seq 0 (Nat.min concurrency (length light0)))
  ∧ i (start light0) = Nat.min concurrency (length light0).
Proof.
  unfold start.
  destruct (pool_inv_spawn light0 (Nat.min concurrency (length light0)) _
              (pool_inv_init light0)) as (Hinv & Hl & Hst & Hexp).
  destruct Hexp as [Hws Hi]; [apply Nat.le_min_r|].
  by split_and!.
Qed.

(** What one step does to the program's variables. *)
Lemma resume_unfold s w r s' :
  resume s w r = Some s' →
  ∃ idx,
    workers s !! w = Some (Awaiting idx)
    ∧ light s' = match r, light s !! idx with
                 | Some d, Some p => <[idx := enrich p d]> (light s)
                 | _, _ => light s
                 end
    ∧ settled s' = settled s ++ [(idx, r)]
    ∧ ∀ w', w' ≠ w → workers s' !! w' = workers s !! w'.
Proof.
  unfold resume. intros Hres.
  destruct (workers s !! w) as [[idx|]|] eqn:Hw; try done.
  exists idx. split; [done|].
  match type of Hres with context [claim ?s1] =>
    destruct (claim_cases s1) as [[_ Heq]|(p & _ & _ & Heq)];
    rewrite Heq in Hres; injection Hres as <-; simpl
  end; (split_and!; [done|done|]);
    intros w' Hne; by rewrite list_lookup_insert_ne.
Qed.

(** A worker that waits can always be resumed, whatever the answer. *)
Lemma resume_is_Some s w idx r :
  workers s !! w = Some (Awaiting idx) → is_Some (resume s w r).
Proof.
  unfold resume. intros ->.
  match goal with |- context [claim ?s1] => by destruct (claim s1) end.
Qed.

Lemma all_returned_spec (s : pool) :
  all_returned s = true ↔ Forall (λ w, w = Returned) (workers s).
Proof.
  unfold all_returned. rewrite forallb_forall, Forall_forall.
  split; intros H w Hw.
  - apply list_elem_of_In, H in Hw. by apply bool_decide_eq_true in Hw.
  - apply bool_decide_eq_true, H. by apply list_elem_of_In.
Qed.

Lemma all_returned_awaited (s : pool) :
  all_returned s = true ↔ awaited s = [].
Proof.
  rewrite all_returned_spec. unfold awaited.
  induction (workers s) as [|[k|] ws IH]; simpl.
  - done.
  - split; [|done]. intros H. by apply Forall_cons in H as [? _].
  - rewrite <-IH. split; [by intros [_ ?]%Forall_cons|by constructor].
Qed.

Lemma answer_of_Some (log : list (nat * option PokemonDetail.t)) (k : nat) :
  k ∈ map fst log → ∃ r, answer_of log k = Some r ∧ (k, r) ∈ log.
Proof.
  induction log as [|[j r] log IH]; simpl.
  - intros Hin. by apply elem_of_nil in Hin.
  - intros Hin. destruct (decide (j = k)) as [->|Hne].
    + exists r. split; [done|]. apply list_elem_of_here.
    + apply elem_of_cons in Hin as [?|Hin]; [done|].
      destruct (IH Hin) as (r' & Hr' & Hin'). exists r'.
      split; [done|]. by apply list_elem_of_further.
Qed.

(** Answering the first waiting worker, [length light0] times at most,
    completes the run; every answer delivered is the one [answer] gives. *)
Lemma drain_complete light0 answer : ∀ fuel s,
  pool_inv light0 s →
  length light0 - length (settled s) ≤ fuel →
  ∃ s',
    run s (drain fuel answer s) = Some s'
    ∧ all_returned s' = true
    ∧ ∀ k r, (k, r) ∈ settled s' → (k, r) ∈ settled s ∨ r = answer k.
Proof.
  induction fuel as [|fuel IH]; intros s Hinv Hfuel.
  - exists s. split; [done|]. split; [|by left].
    apply all_returned_awaited.
    pose proof (inv_claimed _ _ _ _ Hinv) as Hperm.
    apply Permutation_length in Hperm.
    rewrite length_app, length_map, length_seq in Hperm.
    pose proof (inv_cursor _ _ _ _ Hinv).
    apply length_zero_iff_nil. lia.
  - simpl. unfold waiting.
    destruct (list_find _ (workers s)) as [[w wk]|] eqn:Hfind.
    + apply list_find_Some in Hfind as (Hw & Hwk & _).
      destruct wk as [idx|]; [|done].
      destruct (resume_is_Some s w idx (answer idx) Hw) as [s1 Hres].
      rewrite Hres. simpl. rewrite Hres.
      destruct (pool_inv_resume _ _ _ _ _ Hinv Hres) as (Hinv1 & _ & Hlen).
      destruct (IH s1 Hinv1) as (s' & Hrun & Hall & Hans); [lia|].
      exists s'. split_and!; [done|done|].
      intros k r Hin. destruct (Hans k r Hin) as [Hin1|?]; [|by right].
      apply resume_unfold in Hres as (idx' & Hw' & _ & Hst & _).
      rewrite Hst in Hin1. apply elem_of_app in Hin1 as [?|Hin1]; [by left|].
      apply list_elem_of_singleton in Hin1 as [= -> ->].
      right. congruence.
    + exists s. split; [done|]. split; [|by left].
      apply list_find_None in Hfind. apply all_returned_spec.
      eapply Forall_impl; [exact Hfind|]. simpl. intros w Hw.
      by destruct (decide (w = Returned)).
Qed.

Lemma awaited_all (j m : nat) :
  length (map Awaiting (seq j m) ≫= awaited_by) = m.
Proof.
  revert j. induction m as [|m IH]; intros j; [done|].
  rewrite <-cons_seq. cbn [map]. rewrite bind_cons, length_app, IH. done.
Qed.

Lemma awaited_length (s : pool) : length (awaited s) ≤ length (workers s).
Proof.
  unfold awaited. induction (workers s) as [|[k|] ws IH]; [done|..];
    rewrite bind_cons, length_app; simpl in *; lia.
Qed.

Lemma awaited_elem (s : pool) (w idx : nat) :
  workers s !! w = Some (Awaiting idx) → idx ∈ awaited s.
Proof.
  intros Hw. unfold awaited. apply list_elem_of_bind.
  exists (Awaiting idx). split; [apply list_elem_of_here|].
  by eapply list_elem_of_lookup_2.
Qed.

(** An index in flight has not been answered: its entry is still the
    light item. *)
Lemma awaited_untouched light0 s w idx p :
  pool_inv light0 s → workers s !! w = Some (Awaiting idx) →
  light s !! idx = Some p → light0 !! idx = Some p.
Proof.
  intros Hinv Hw Hp.
  assert (Hnodup : NoDup (awaited s ++ map fst (settled s))).
  { rewrite (inv_claimed _ _ _ _ Hinv). apply NoDup_seq. }
  apply NoDup_app in Hnodup as (_ & Hdisj & _).
  specialize (Hdisj idx (awaited_elem _ _ _ Hw)).
  destruct (lookup_lt_is_Some_2 light0 idx) as [p0 Hp0].
  { rewrite <-(inv_length _ _ _ _ Hinv). by eapply lookup_lt_Some. }
  rewrite (inv_light _ _ _ _ Hinv _ _ Hp0), answer_of_None in Hp by done.
  simpl in Hp. congruence.
Qed.

Lemma reachable_inv light0 sched s :
  run (start light0) sched = Some s →
  pool_inv light0 s
  ∧ length (workers s) = Nat.min concurrency (length light0)
  ∧ length (settled s) = length sched.
Proof.
  intros Hrun.
  destruct (start_spec light0) as (Hinv0 & _ & Hst0 & Hws0 & _).
  destruct (pool_inv_run _ _ _ _ Hinv0 Hrun) as (Hinv & Hws & Hst).
  split_and!; [done| |].
  - by rewrite Hws, Hws0, length_map, length_seq.
  - rewrite Hst, Hst0. done.
Qed.

(** When every worker has returned, the cursor is at the end. *)
Lemma all_returned_cursor light0 sched s :
  run (start light0) sched = Some s → all_returned s = true →
  i s = length light0 ∧ awaited s = [].
Proof.
  intros Hrun Hall.
  destruct (reachable_inv _ _ _ Hrun) as (Hinv & Hws & _).
  split; [|by apply all_returned_awaited].
  destruct (workers s) as [|w ws] eqn:Eq.
  - pose proof (inv_cursor _ _ _ _ Hinv) as Hcur.
    change (length (@nil worker)) with 0 in Hws.
    unfold concurrency in Hws. lia.
  - apply (inv_returned _ _ _ _ Hinv). rewrite Eq.
    apply all_returned_spec in Hall. rewrite Eq in Hall.
    apply Forall_cons in Hall as [-> _]. apply list_elem_of_here.
Qed.

(** The run that [drain] describes is complete, and gives every entry the
    outcome of its own answer. *)
Lemma drain_outcome light0 answer :
  ∃ s, run (start light0) (drain (length light0) answer (start light0)) = Some s
       ∧ all_returned s = true
       ∧ length (light s) = length light0
       ∧ ∀ k p, light0 !! k = Some p →
                light s !! k = Some (outcome p (Some (answer k))).
Proof.
  destruct (start_spec light0) as (Hinv0 & _ & Hst0 & _ & _).
  destruct (drain_complete light0 answer (length light0) (start light0) Hinv0)
    as (s & Hrun & Hall & Hans); [lia|].
  exists s. destruct (reachable_inv _ _ _ Hrun) as (Hinv & _ & _).
  split_and!; [done|done|apply (inv_length _ _ _ _ Hinv)|].
  intros k p Hp.
  destruct (all_returned_cursor _ _ _ Hrun Hall) as [Hi Haw].
  rewrite (inv_light _ _ _ _ Hinv _ _ Hp).
  pose proof (inv_claimed _ _ _ _ Hinv) as Hcl.
  rewrite Hi, Haw in Hcl. simpl in Hcl.
  assert (Hk : k ∈ map fst (settled s)).
  { rewrite Hcl. apply elem_of_seq. apply lookup_lt_Some in Hp. lia. }
  destruct (answer_of_Some _ _ Hk) as (r & -> & Hin).
  destruct (Hans _ _ Hin) as [Hin0| ->]; [|done].
  rewrite Hst0 in Hin0. by apply elem_of_nil in Hin0.
Qed.

End PoolFacts.

(** ** The light list, as enrichment receives it *)

(** In a sorted list of two entries or more every identifier is a number. *)
Lemma sorted_is_integer (l : list Item) :
  (2 ≤ length l)%nat →
  StronglySorted
    (λ a b, JS.le (PokemonListItem.id a) (PokemonListItem.id b) = true) l →
  Forall (λ p, is_integer (PokemonListItem.id p) = true) l.
Proof.
  destruct l as [|a [|b l]]; simpl; [lia|lia|]. intros _ Hs.
  apply StronglySorted_inv in Hs as [_ Hall].
  pose proof Hall as Hhead. apply Forall_cons in Hhead as [Hab _].
  constructor.
  - by destruct (PokemonListItem.id a).
  - eapply Forall_impl; [exact Hall|]. simpl. intros x Hx.
    by destruct (PokemonListItem.id a), (PokemonListItem.id x).
Qed.

(** The comparator of the light list is consistent on the entries whose
    identifier is a number. *)
Lemma sub_id_trans (a b c : Item) :
  is_integer (PokemonListItem.id a) = true →
  is_integer (PokemonListItem.id b) = true →
  is_integer (PokemonListItem.id c) = true →
  JS.sortOrder (JS.sub (PokemonListItem.id a) (PokemonListItem.id b)) ≤ 0 →
  JS.sortOrder (JS.sub (PokemonListItem.id b) (PokemonListItem.id c)) ≤ 0 →
  JS.sortOrder (JS.sub (PokemonListItem.id a) (PokemonListItem.id c)) ≤ 0.
Proof.
  destruct (PokemonListItem.id a), (PokemonListItem.id b),
    (PokemonListItem.id c); try done. simpl. lia.
Qed.

Lemma sub_id_antisym (a b : Item) :
  is_integer (PokemonListItem.id a) = true →
  is_integer (PokemonListItem.id b) = true →
  Z.sgn (JS.sortOrder (JS.sub (PokemonListItem.id b) (PokemonListItem.id a)))
  = - Z.sgn (JS.sortOrder (JS.sub (PokemonListItem.id a) (PokemonListItem.id b))).
Proof.
  destruct (PokemonListItem.id a), (PokemonListItem.id b); try done. simpl. lia.
Qed.

(** A text that [Number_] reads as the host does gives a number that
    [String_] prints as the host does. *)
Lemma Number_exact_String_exact (seg : option string) :
  JS.Number_exact seg = true → JS.String_exact (JS.Number_ seg) = true.
Proof.
  unfold JS.Number_exact, JS.Number_, JS.String_exact.
  destruct seg as [t|]; [|done].
  destruct (NilZero.uint_of_string t) as [u|].
  - intros Hle. apply Z.leb_le in Hle. apply Z.leb_le.
    unfold Z.of_uint in *. lia.
  - by destruct (JS.StringToNumber t).
Qed.



(** ** Enrichment *)

(** C3. For a list of [n] entries the pool starts [min 4 n] workers on the
    indices [0 .. min 4 n - 1], with the shared cursor behind them.  In
    every state of every run: the requests in flight are those of the
    waiting workers, at most 4; the requests issued so far are one for each
    index below the cursor, in order, each for the identifier of its own
    entry; every entry is what its own answer makes of it (enriched when
    its request succeeded, the light item when it failed or is not
    answered yet), whatever the other answers were; a waiting worker goes
    on after a failure as after a success.  When all workers have
    returned, exactly [n] requests have been issued and [n] answers
    delivered, one per entry.  Such a complete run exists for every choice
    of successes and failures. *)
Theorem enrichment_pool (light0 : list Item) :
  let n := length light0 in
  let m := Nat.min 4 n in
  (workers (start light0) = map Awaiting (seq 0 m)
   ∧ i (start light0) = m
   ∧ inflight (start light0) = m)
  ∧ (∀ sched s,
       run (start light0) sched = Some s →
       (inflight s = length (awaited s) ∧ (inflight s ≤ 4)%nat
        ∧ length (workers s) = m)
       ∧ (map fst (issued s) = seq 0 (i s) ∧ (i s ≤ n)%nat
          ∧ ∀ k id, (k, id) ∈ issued s →
                    PokemonListItem.id <$> light0 !! k = Some id)
       ∧ (∀ k p, light0 !! k = Some p →
                 light s !! k = Some (outcome p (answer_of (settled s) k)))
       ∧ (∀ w idx r, workers s !! w = Some (Awaiting idx) →
                     ∃ s', resume s w r = Some s'
                           ∧ ∀ w', w' ≠ w → workers s' !! w' = workers s !! w')
       ∧ (all_returned s = true →
          map fst (issued s) = seq 0 n
          ∧ length (issued s) = n
          ∧ map fst (settled s) ≡ₚ seq 0 n
          ∧ length sched = n))
  ∧ (∀ answer : nat → option PokemonDetail.t,
       ∃ s, run (start light0) (drain n answer (start light0)) = Some s
            ∧ all_returned s = true
            ∧ ∀ k p, light0 !! k = Some p →
                     light s !! k = Some (outcome p (Some (answer k)))).
Proof.
  intros n m.
  destruct (start_spec light0) as (Hinv0 & Hl0 & Hst0 & Hws0 & Hi0).
  split_and!.
  - done.
  - done.
  - rewrite (inv_inflight _ _ _ _ Hinv0). unfold awaited. rewrite Hws0.
    apply awaited_all.
  - intros sched s Hrun.
    destruct (reachable_inv _ _ _ Hrun) as (Hinv & Hws & Hst).
    split_and!.
    + apply (inv_inflight _ _ _ _ Hinv).
    + rewrite (inv_inflight _ _ _ _ Hinv).
      pose proof (awaited_length s). unfold concurrency in Hws. lia.
    + done.
    + apply (inv_issued _ _ _ _ Hinv).
    + apply (inv_cursor _ _ _ _ Hinv).
    + apply (inv_issued_id _ _ _ _ Hinv).
    + apply (inv_light _ _ _ _ Hinv).
    + intros w idx r Hw.
      destruct (resume_is_Some s w idx r Hw) as [s' Hres].
      exists s'. split; [done|].
      by apply resume_unfold in Hres as (? & _ & _ & _ & Hothers).
    + intros Hall.
      destruct (all_returned_cursor _ _ _ Hrun Hall) as [Hi Haw].
      pose proof (inv_issued _ _ _ _ Hinv) as Hiss.
      pose proof (inv_claimed _ _ _ _ Hinv) as Hcl.
      rewrite Hi in Hiss, Hcl. rewrite Haw in Hcl. simpl in Hcl.
      split_and!; [done| |done|].
      * by rewrite <-(length_map fst), Hiss, length_seq.
      * rewrite <-Hst, <-(length_map fst (settled s)), Hcl. apply length_seq.
  - intros answer.
    destruct (drain_outcome light0 answer) as (s & Hrun & Hall & _ & Hout).
    by exists s.
Qed.

Lemma lightItem_sentinel (results : list NamedAPIResource.t) (p : Item) :
  p ∈ buildLight results →
  PokemonListItem.base_experience p = -1
  ∧ PokemonListItem.height p = -1
  ∧ PokemonListItem.weight p = -1.
Proof.
  unfold buildLight. rewrite sort_perm.
  intros (it & -> & _)%list_elem_of_fmap. done.
Qed.

(** The answers are logged in the order in which they arrive. *)
Lemma run_settled sched : ∀ s s',
  run s sched = Some s' → ∃ more, settled s' = settled s ++ more.
Proof.
  induction sched as [|[w r] sched IH]; intros s s' Hrun; simpl in Hrun.
  - injection Hrun as <-. exists []. by rewrite app_nil_r.
  - destruct (resume s w r) as [s1|] eqn:Hres; [|done].
    apply resume_unfold in Hres as (idx & _ & _ & Hst & _).
    destruct (IH _ _ Hrun) as (more & ->).
    exists ((idx, r) :: more). by rewrite Hst, <-app_assoc.
Qed.

Lemma answer_of_app (log more : list (nat * option PokemonDetail.t)) (k : nat)
    (a : option PokemonDetail.t) :
  answer_of log k = Some a → answer_of (log ++ more) k = Some a.
Proof.
  induction log as [|[j r] log IH]; simpl; [done|].
  by destruct (decide (j = k)).
Qed.

(** The request of a waiting worker was sent for an index below the
    cursor and has not been answered. *)
Lemma awaited_unanswered light0 s w idx :
  pool_inv light0 s → workers s !! w = Some (Awaiting idx) →
  (idx < i s)%nat ∧ (idx ∉ map fst (settled s)).
Proof.
  intros Hinv Hw. pose proof (awaited_elem _ _ _ Hw) as Hin.
  pose proof (inv_claimed _ _ _ _ Hinv) as Hperm. split.
  - assert (Hseq : idx ∈ seq 0 (i s))
      by (rewrite <-Hperm; apply elem_of_app; by left).
    apply elem_of_seq in Hseq. lia.
  - assert (Hnodup : NoDup (awaited s ++ map fst (settled s)))
      by (rewrite Hperm; apply NoDup_seq).
    apply NoDup_app in Hnodup as (_ & Hdisj & _). by apply Hdisj.
Qed.

(** C2, amended.  A step of a run of the enrichment delivers the answer
    [r] to the request that worker [w] sent for its own index [idx]: the
    request carried the identifier of the entry, it had not been answered
    before, and the entry was still the light item, with all three
    attributes at -1.  When the request failed nothing is written.  When
    it succeeded with a detail [d], the entry of [idx], and no other, is
    replaced: identifier, name and URL stay, and the three attributes
    become those of [d] (non-negative when those of [d] are; the values
    are copied as they come).  Every entry keeps its identifier and its
    name, which are those of the light list, and an attribute that is not
    -1 is not changed.  An entry whose request was answered before is not
    touched, and the entry of [idx] is never written again in the rest of
    the run: each entry is written at most once. *)
Theorem enrichment_step (results : list NamedAPIResource.t)
    (sched : list (nat * option PokemonDetail.t)) (s s' : pool)
    (w : nat) (r : option PokemonDetail.t) :
  run (start (buildLight results)) sched = Some s →
  resume s w r = Some s' →
  ∃ (idx : nat) (e : Item),
    workers s !! w = Some (Awaiting idx)
    ∧ (idx, PokemonListItem.id e) ∈ issued s
    ∧ answer_of (settled s) idx = None
    ∧ answer_of (settled s') idx = Some r
    ∧ light s !! idx = Some e
    ∧ buildLight results !! idx = Some e
    ∧ PokemonListItem.base_experience e = -1
    ∧ PokemonListItem.height e = -1
    ∧ PokemonListItem.weight e = -1
    ∧ (r = None → light s' = light s)
    ∧ (∀ d, r = Some d →
         ∃ e', light s' !! idx = Some e'
           ∧ PokemonListItem.id e' = PokemonListItem.id e
           ∧ PokemonListItem.name e' = PokemonListItem.name e
           ∧ PokemonListItem.url e' = PokemonListItem.url e
           ∧ PokemonListItem.base_experience e' = PokemonDetail.base_experience d
           ∧ PokemonListItem.height e' = PokemonDetail.height d
           ∧ PokemonListItem.weight e' = PokemonDetail.weight d
           ∧ (0 ≤ PokemonDetail.base_experience d →
              0 ≤ PokemonDetail.height d →
              0 ≤ PokemonDetail.weight d →
              0 ≤ PokemonListItem.base_experience e'
              ∧ 0 ≤ PokemonListItem.height e'
              ∧ 0 ≤ PokemonListItem.weight e'))
    ∧ (∀ k, k ≠ idx → light s' !! k = light s !! k)
    ∧ (∀ k, answer_of (settled s) k ≠ None → light s' !! k = light s !! k)
    ∧ (∀ k e0, light s !! k = Some e0 →
         ∃ e1 p0,
           light s' !! k = Some e1
           ∧ buildLight results !! k = Some p0
           ∧ PokemonListItem.id e1 = PokemonListItem.id e0
           ∧ PokemonListItem.id e0 = PokemonListItem.id p0
           ∧ PokemonListItem.name e1 = PokemonListItem.name e0
           ∧ PokemonListItem.name e0 = PokemonListItem.name p0
           ∧ (PokemonListItem.base_experience e0 ≠ -1 →
              PokemonListItem.base_experience e1 = PokemonListItem.base_experience e0)
           ∧ (PokemonListItem.height e0 ≠ -1 →
              PokemonListItem.height e1 = PokemonListItem.height e0)
           ∧ (PokemonListItem.weight e0 ≠ -1 →
              PokemonListItem.weight e1 = PokemonListItem.weight e0))
    ∧ (∀ sched' s'', run s' sched' = Some s'' →
         light s'' !! idx = light s' !! idx
         ∧ answer_of (settled s'') idx = Some r).
Proof.
  intros Hrun Hres.
  destruct (reachable_inv _ _ _ Hrun) as (Hinv & _ & _).
  destruct (pool_inv_resume _ _ _ _ _ Hinv Hres) as (Hinv' & _ & _).
  apply resume_unfold in Hres as (idx & Hw & Hlight & Hst & _).
  destruct (awaited_unanswered _ _ _ _ Hinv Hw) as [Hcur Hnot].
  pose proof (inv_cursor _ _ _ _ Hinv) as Hi.
  pose proof (inv_length _ _ _ _ Hinv) as Hlen.
  destruct (lookup_lt_is_Some_2 (light s) idx) as [e He]; [lia|].
  assert (He0 : buildLight results !! idx = Some e)
    by exact (awaited_untouched _ _ _ _ _ Hinv Hw He).
  destruct (lightItem_sentinel results e) as (Hb & Hh & Hwt).
  { by eapply list_elem_of_lookup_2. }
  assert (Hnone : answer_of (settled s) idx = None) by by apply answer_of_None.
  assert (Hsome : answer_of (settled s') idx = Some r).
  { by rewrite Hst, answer_of_snoc, Hnone, decide_True. }
  assert (Hother : ∀ k, k ≠ idx → light s' !! k = light s !! k).
  { intros k Hne. rewrite Hlight. destruct r as [d|]; [|done].
    rewrite He. by apply list_lookup_insert_ne. }
  exists idx, e. split_and!; try done.
  - assert (Hin : idx ∈ map fst (issued s)).
    { rewrite (inv_issued _ _ _ _ Hinv). apply elem_of_seq. lia. }
    apply list_elem_of_fmap in Hin as ([j n] & Heq & Hin).
    simpl in Heq. subst j.
    pose proof (inv_issued_id _ _ _ _ Hinv _ _ Hin) as Hn.
    rewrite He0 in Hn. simpl in Hn. by injection Hn as ->.
  - intros ->. done.
  - intros d ->. exists (enrich e d). rewrite Hlight, He.
    split; [apply list_lookup_insert_eq; by eapply lookup_lt_Some|].
    split_and!; done.
  - intros k Hk. apply Hother. intros ->. done.
  - intros k e0 Hk.
    destruct (lookup_lt_is_Some_2 (buildLight results) k) as [p0 Hp0].
    { rewrite <-Hlen. by eapply lookup_lt_Some. }
    assert (Hid : PokemonListItem.id e0 = PokemonListItem.id p0
                  ∧ PokemonListItem.name e0 = PokemonListItem.name p0).
    { rewrite (inv_light _ _ _ _ Hinv _ _ Hp0) in Hk. injection Hk as <-.
      by destruct (answer_of (settled s) k) as [[d|]|]. }
    destruct Hid as [Hid Hname].
    destruct (decide (k = idx)) as [->|Hne].
    + assert (e0 = e) as -> by congruence.
      destruct r as [d|].
      * exists (enrich e d), p0. rewrite Hlight, He.
        split; [apply list_lookup_insert_eq; by eapply lookup_lt_Some|].
        split_and!; try done.
      * exists e, p0. rewrite Hlight. split_and!; done.
    + exists e0, p0. rewrite Hother by done. split_and!; done.
  - intros sched' s'' Hrun'.
    destruct (pool_inv_run _ _ _ _ Hinv' Hrun') as (Hinv'' & _ & _).
    destruct (run_settled _ _ _ Hrun') as (more & Hmore).
    assert (Hsome' : answer_of (settled s'') idx = Some r)
      by (rewrite Hmore; by apply answer_of_app).
    split; [|done].
    by rewrite (inv_light _ _ _ _ Hinv' _ _ He0), Hsome,
      (inv_light _ _ _ _ Hinv'' _ _ He0), Hsome'.
Qed.

(** C2 as written fails when a detail carries a negative attribute: the
    entry moves from -1 to that value, which is neither -1 nor
    non-negative. *)
Lemma enrichment_step_counterexample :
  ¬ ∀ (results : list NamedAPIResource.t)
      (sched : list (nat * option PokemonDetail.t)) (s s' : pool)
      (w : nat) (r : option PokemonDetail.t) (k : nat) (e e' : Item),
      run (start (buildLight results)) sched = Some s →
      resume s w r = Some s' →
      light s !! k = Some e →
      light s' !! k = Some e' →
      PokemonListItem.id e' = PokemonListItem.id e
      ∧ PokemonListItem.name e' = PokemonListItem.name e
      ∧ (PokemonListItem.base_experience e' = PokemonListItem.base_experience e
         ∨ (PokemonListItem.base_experience e = -1
            ∧ 0 ≤ PokemonListItem.base_experience e'))
      ∧ (PokemonListItem.height e' = PokemonListItem.height e
         ∨ (PokemonListItem.height e = -1 ∧ 0 ≤ PokemonListItem.height e'))
      ∧ (PokemonListItem.weight e' = PokemonListItem.weight e
         ∨ (PokemonListItem.weight e = -1 ∧ 0 ≤ PokemonListItem.weight e')).
Proof.
  intros H.
  set (results := [NamedAPIResource.mk "bulbasaur" "https://pokeapi.co/api/v2/pokemon/1/"]).
  set (d := PokemonDetail.mk (JS.Fin 1) "bulbasaur" None [] 7 69 (-5)).
  set (s := start (buildLight results)).
  destruct (resume s 0 (Some d)) as [s'|] eqn:Hres; [|by vm_compute in Hres].
  destruct (light s !! 0%nat) as [e|] eqn:He; [|by vm_compute in He].
  destruct (light s' !! 0%nat) as [e'|] eqn:He'.
  2: { vm_compute in Hres. injection Hres as <-. by vm_compute in He'. }
  specialize (H results [] s s' 0%nat (Some d) 0%nat e e' eq_refl Hres He He').
  vm_compute in Hres. injection Hres as <-.
  vm_compute in He. injection He as <-.
  vm_compute in He'. injection He' as <-.
  simpl in H. destruct H as (_ & _ & [?|[_ ?]] & _); [done|lia].
Qed.

(** A step of the run on [page_example]: the first worker's request, for
    the entry of index 0, is answered with [detail_example]. *)
Lemma enrichment_step_witness :
  run (start (buildLight page_example)) [] = Some (start (buildLight page_example))
  ∧ resume (start (buildLight page_example)) 0 (Some detail_example)
    = Some pool_example
  ∧ ∃ (idx : nat) (e : Item),
      workers (start (buildLight page_example)) !! 0%nat = Some (Awaiting idx)
      ∧ light (start (buildLight page_example)) !! idx = Some e
      ∧ PokemonListItem.base_experience e = -1
      ∧ answer_of (settled pool_example) idx = Some (Some detail_example)
      ∧ ∃ e', light pool_example !! idx = Some e'
              ∧ PokemonListItem.id e' = PokemonListItem.id e
              ∧ PokemonListItem.name e' = PokemonListItem.name e
              ∧ PokemonListItem.base_experience e' = 64
              ∧ PokemonListItem.height e' = 7
              ∧ PokemonListItem.weight e' = 69.
Proof.
  assert (H1 : run (start (buildLight page_example)) []
               = Some (start (buildLight page_example))) by reflexivity.
  assert (H2 : resume (start (buildLight page_example)) 0 (Some detail_example)
               = Some pool_example) by (vm_compute; reflexivity).
  split_and!; [exact H1|exact H2|].
  destruct (enrichment_step page_example [] _ _ 0%nat _ H1 H2)
    as (idx & e & Hw & _ & _ & Hans & He & _ & Hb & _ & _ & _ & Hd & _).
  destruct (Hd detail_example eq_refl)
    as (e' & He' & Hid & Hname & _ & Hbe & Hh & Hwt & _).
  exists idx, e. split_and!; [done..|].
  exists e'. split_and!; done.
Defined.

(** ** The fallback *)

(** C4. When the page request throws, [getPokemonPage] returns the
    built-in list, whatever happens afterwards: three items, bulbasaur
    with identifier 1, charmander with 4 and squirtle with 7.  A page
    request that succeeds does not lead there, even when every detail
    request fails: the result is then the light list. *)
Theorem getPokemonPage_fallback :
  (∀ sched, getPokemonPage None sched = Some mock)
  ∧ length mock = 3%nat
  ∧ map (λ p, (PokemonListItem.name p, PokemonListItem.id p)) mock
    = [("bulbasaur", JS.Fin 1); ("charmander", JS.Fin 4); ("squirtle", JS.Fin 7)]
  ∧ ∀ results,
      getPokemonPage (Some results)
        (drain (length (buildLight results)) (λ _, None)
               (start (buildLight results)))
      = Some (buildLight results).
Proof.
  split_and!; try done.
  intros results. unfold getPokemonPage.
  destruct (drain_outcome (buildLight results) (λ _, None))
    as (s & -> & -> & Hlen & Hout).
  f_equal. apply list_eq_same_length with (length (buildLight results)); try done.
  intros k p q Hk Hp Hq.
  destruct (lookup_lt_is_Some_2 (buildLight results) k Hk) as [p0 Hp0].
  rewrite (Hout _ _ Hp0) in Hp. simpl in Hp. congruence.
Qed.

(** ** Instances of the theorems with hypotheses *)

Lemma codeUnitCompare_refl (x : string) : codeUnitCompare x x = 0.
Proof.
  unfold codeUnitCompare.
  pose proof (String.compare_antisym x x) as H.
  by destruct (String.compare x x).
Qed.

(** The query [" BULB "] on [sample]. *)
Lemma filterItems_spec_witness :
  Forall (λ p, JS.String_exact (PokemonListItem.id p) = true) sample
  ∧ filterItems sample " BULB " =
      (if decide (JS.trim " BULB " = "") then sample
       else filter (λ p, contains (PokemonListItem.name p)
                           (JS.toLowerCase (JS.trim " BULB "))
                         ∨ JS.String_ (PokemonListItem.id p)
                           = JS.toLowerCase (JS.trim " BULB ")) sample).
Proof.
  assert (H : Forall (λ p, JS.String_exact (PokemonListItem.id p) = true) sample)
    by (repeat constructor).
  split; [exact H|].
  exact (proj1 (filterItems_spec sample " BULB " H)).
Defined.


(** Sorting the array [sample], stored at reference 1. *)
Lemma sortItems_input_unmodified_witness :
  ({[ 1%positive := sample ]} : gmap ref (list Item)) !! 1%positive = Some sample
  ∧ ∃ h' r,
      sortItems_ref codeUnitCompare {[ 1%positive := sample ]} 1%positive key_id desc
      = Some (h', r)
      ∧ r ≠ 1%positive
      ∧ ({[ 1%positive := sample ]} : gmap ref (list Item)) !! r = None
      ∧ h' !! r = Some (sortItems codeUnitCompare sample key_id desc)
      ∧ h' !! 1%positive = Some sample
      ∧ ∀ a, a ≠ r → h' !! a = ({[ 1%positive := sample ]} : gmap ref (list Item)) !! a.
Proof.
  split; [reflexivity|].
  apply (sortItems_input_unmodified codeUnitCompare
           {[ 1%positive := sample ]} 1%positive sample key_id desc).
  reflexivity.
Defined.

(** The assertions of [runRuntimeTests] on [sortItems]. *)
Example sortItems_runtime_tests :
  PokemonListItem.id <$> head (sortItems codeUnitCompare sample key_id asc)
  = Some (JS.Fin 1)
  ∧ PokemonListItem.id <$> head (sortItems codeUnitCompare sample key_id desc)
    = Some (JS.Fin 4)
  ∧ PokemonListItem.name <$> head (sortItems codeUnitCompare sample key_name asc)
    = Some "bulbasaur"
  ∧ PokemonListItem.base_experience
      <$> head (sortItems codeUnitCompare sample key_base_experience desc)
    = Some 142
  ∧ JS.indexOf (map PokemonListItem.id sample) (JS.Fin 1) = 0.
Proof. by vm_compute. Qed.

(** * More of the program *)

(** ** [sortItems] and the list view *)

Section ListViewFacts.
Variable localeCompare : string → string → Z.
Hypothesis localeCompare_order : is_order localeCompare.





End ListViewFacts.

(** X5. The rows of the list view are the rows that pass the filter, in
    some order: never more than the list holds, each of them an item of
    the list, and all of the list when the query is blank. *)
Theorem ListView_filteredSorted_rows (localeCompare : string → string → Z)
    (items : list Item) (query : string) (key : SortKey) (dir : SortDir) :
  ListView_filteredSorted localeCompare items query key dir
    ≡ₚ filterItems items query
  ∧ ListView_filteredSorted localeCompare items query key dir ⊆+ items
  ∧ (length (ListView_filteredSorted localeCompare items query key dir)
     ≤ length items)%nat
  ∧ (JS.trim query = "" →
     ListView_filteredSorted localeCompare items query key dir ≡ₚ items).
Proof.
  assert (Hperm : ListView_filteredSorted localeCompare items query key dir
                  ≡ₚ filterItems items query) by apply sort_perm.
  assert (Hsub : filterItems items query `sublist_of` items).
  { unfold filterItems. destruct (negb _); [done|apply List_filter_sublist]. }
  split_and!.
  - done.
  - rewrite Hperm. by apply sublist_submseteq.
  - rewrite Hperm. by apply sublist_length.
  - intros Ht. rewrite Hperm. unfold filterItems. by rewrite Ht.
Qed.

(** X6. [filterItems] keeps a sub-sequence of its input, and filtering the
    result again with the same query keeps all of it. *)
Theorem filterItems_idempotent (items : list Item) (q : string) :
  filterItems items q `sublist_of` items
  ∧ filterItems (filterItems items q) q = filterItems items q.
Proof.
  unfold filterItems.
  destruct (negb (JS.truthy (JS.toLowerCase (JS.trim q)))); [done|].
  split; [apply List_filter_sublist|apply List_filter_idempotent].
Qed.

(** ** The filter chips *)

(** X7. [getAllTypes] fails exactly when the request fails.  Otherwise it
    returns the names of the results in their order, without ["unknown"]
    and ["shadow"] and with every other name. *)
Theorem getAllTypes_spec (res : option (list NamedAPIResource.t)) :
  (getAllTypes res = None ↔ res = None)
  ∧ ∀ results names,
      res = Some results → getAllTypes res = Some names →
      names `sublist_of` map NamedAPIResource.name results
      ∧ ("unknown" ∉ names) ∧ ("shadow" ∉ names)
      ∧ ∀ n, n ∈ map NamedAPIResource.name results →
             n ≠ "unknown" → n ≠ "shadow" → n ∈ names.
Proof.
  split; [by destruct res|].
  intros results names -> [= <-].
  assert (Hin : ∀ n,
    n ∈ List.filter (λ n, negb (includes_label ["unknown"; "shadow"] n))
          (map NamedAPIResource.name results)
    ↔ n ∈ map NamedAPIResource.name results ∧ n ≠ "unknown" ∧ n ≠ "shadow").
  { intros n. rewrite list_elem_of_In, filter_In, <-list_elem_of_In.
    rewrite negb_true_iff, <-not_true_iff_false, includes_label_spec.
    rewrite !elem_of_cons, elem_of_nil. tauto. }
  split_and!.
  - apply List_filter_sublist.
  - rewrite Hin. tauto.
  - rewrite Hin. tauto.
  - intros n ? ? ?. by apply Hin.
Qed.

Lemma toggle_elem (selected : list string) (t x : string) :
  x ∈ GalleryFilters_toggle selected t
  ↔ (x = t ∧ t ∉ selected) ∨ (x ≠ t ∧ x ∈ selected).
Proof.
  unfold GalleryFilters_toggle.
  destruct (includes_label selected t) eqn:E.
  - apply includes_label_spec in E.
    rewrite list_elem_of_In, filter_In, <-list_elem_of_In.
    rewrite negb_true_iff, String.eqb_neq. split; [tauto|].
    intros [[-> ?]|[? ?]]; [done|tauto].
  - assert (t ∉ selected) by (rewrite <-includes_label_spec; congruence).
    rewrite elem_of_app, list_elem_of_singleton.
    destruct (decide (x = t)) as [->|]; tauto.
Qed.

(** X8. A click on a chip flips the membership of its label in the
    selection and of no other label; a selection without repetition stays
    without repetition; clicking a chip that was off twice gives back the
    selection as it was. *)
Theorem GalleryFilters_toggle_spec (selected : list string) (t : string) :
  (t ∈ GalleryFilters_toggle selected t ↔ t ∉ selected)
  ∧ (∀ x, x ≠ t → x ∈ GalleryFilters_toggle selected t ↔ x ∈ selected)
  ∧ (NoDup selected → NoDup (GalleryFilters_toggle selected t))
  ∧ (t ∉ selected →
     GalleryFilters_toggle (GalleryFilters_toggle selected t) t = selected).
Proof.
  split_and!.
  - rewrite toggle_elem. tauto.
  - intros x Hne. rewrite toggle_elem. tauto.
  - intros Hnodup. unfold GalleryFilters_toggle.
    destruct (includes_label selected t) eqn:E.
    + induction Hnodup as [|x l Hx Hl IH]; simpl; [constructor|].
      assert (IH' : NoDup (List.filter (λ x0, negb (x0 =? t)%string) l)).
      { destruct (includes_label l t) eqn:El; [by apply IH|].
        clear -Hl El. unfold includes_label in El.
        induction Hl as [|y l Hy Hl IH]; simpl in *; [constructor|].
        apply orb_false_iff in El as [Ey El].
        rewrite String.eqb_sym in Ey. rewrite Ey. simpl.
        constructor; [|by apply IH].
        rewrite list_elem_of_In, filter_In, <-list_elem_of_In. tauto. }
      destruct (negb (x =? t)%string); [|done].
      constructor; [|done].
      rewrite list_elem_of_In, filter_In, <-list_elem_of_In. tauto.
    + apply NoDup_app. split_and!; [done| |apply NoDup_singleton].
      intros x Hx ->%list_elem_of_singleton.
      apply includes_label_spec in Hx. congruence.
  - intros Hnin. unfold GalleryFilters_toggle at 2.
    assert (includes_label selected t = false) as ->.
    { apply not_true_iff_false. by rewrite includes_label_spec. }
    unfold GalleryFilters_toggle.
    assert (includes_label (selected ++ [t]) t = true) as ->.
    { apply includes_label_spec, elem_of_app. right. apply list_elem_of_here. }
    rewrite List_filter_app. simpl. rewrite String.eqb_refl. simpl.
    rewrite app_nil_r. clear -Hnin.
    induction selected as [|x l IH]; simpl; [done|].
    apply not_elem_of_cons in Hnin as [Hne Hnin].
    apply String.eqb_neq in Hne. rewrite String.eqb_sym in Hne.
    rewrite Hne. simpl. by rewrite IH.
Qed.

(** The gallery is always a filter, also for the empty selection. *)
Lemma GalleryView_filtered_filter (items : list Item) (selected : list string) :
  GalleryView_filtered items selected
  = List.filter
      (fun p => forallb (fun t => includes_label (PokemonListItem.types p) t) selected)
      items.
Proof.
  unfold GalleryView_filtered. destruct selected as [|t selected]; [|done].
  simpl. induction items as [|p items IH]; simpl; congruence.
Qed.

Lemma List_filter_ext_in {A} (f g : A → bool) (l : list A) :
  (∀ x, x ∈ l → f x = g x) → List.filter f l = List.filter g l.
Proof.
  induction l as [|x l IH]; intros H; simpl; [done|].
  rewrite (H x) by apply list_elem_of_here.
  rewrite IH; [done|]. intros y Hy. apply H. by apply list_elem_of_further.
Qed.

(** X9. The gallery depends on which labels are selected, not on their
    order or repetition; so clicking a chip twice leaves the gallery as it
    was. *)
Theorem GalleryView_filtered_same_labels (items : list Item)
    (selected selected' : list string) (t : string) :
  ((∀ x, x ∈ selected ↔ x ∈ selected') →
   GalleryView_filtered items selected = GalleryView_filtered items selected')
  ∧ GalleryView_filtered items
      (GalleryFilters_toggle (GalleryFilters_toggle selected t) t)
    = GalleryView_filtered items selected.
Proof.
  assert (Hsame : ∀ s1 s2 : list string,
    (∀ x, x ∈ s1 ↔ x ∈ s2) →
    GalleryView_filtered items s1 = GalleryView_filtered items s2).
  { intros s1 s2 Heq. rewrite !GalleryView_filtered_filter.
    apply List_filter_ext_in. intros p _.
    apply eq_true_iff_eq. rewrite !every_includes_spec.
    unfold subseteq, list_subseteq. by setoid_rewrite Heq. }
  split; [apply Hsame|].
  apply Hsame. intros x. rewrite !toggle_elem.
  destruct (decide (x = t)) as [->|Hne]; destruct (decide (t ∈ selected));
    split; intros Hx; intuition congruence.
Qed.

(** X10. Selecting one more label narrows the gallery: the new gallery is
    the current one without the items that lack the label. *)
Theorem GalleryView_filtered_narrow (items : list Item)
    (selected : list string) (t : string) :
  t ∉ selected →
  GalleryView_filtered items (GalleryFilters_toggle selected t)
  = List.filter (fun p => includes_label (PokemonListItem.types p) t)
      (GalleryView_filtered items selected)
  ∧ GalleryView_filtered items (GalleryFilters_toggle selected t)
    `sublist_of` GalleryView_filtered items selected.
Proof.
  intros Hnin.
  assert (Heq : GalleryView_filtered items (GalleryFilters_toggle selected t)
    = List.filter (fun p => includes_label (PokemonListItem.types p) t)
        (GalleryView_filtered items selected)).
  { unfold GalleryFilters_toggle.
    assert (includes_label selected t = false) as ->.
    { apply not_true_iff_false. by rewrite includes_label_spec. }
    rewrite !GalleryView_filtered_filter.
    induction items as [|p items IH]; simpl; [done|].
    rewrite forallb_app. simpl. rewrite andb_true_r.
    destruct (forallb _ selected); simpl; [|by rewrite IH].
    destruct (includes_label (PokemonListItem.types p) t); by rewrite IH. }
  split; [done|]. rewrite Heq. apply List_filter_sublist.
Qed.

(** ** Identifiers as text *)

(** Printing a non-negative integer and reading it back gives the
    integer. *)
Lemma Number_String (z : Z) :
  0 ≤ z → JS.Number_ (Some (JS.String_ (JS.Fin z))) = JS.Fin z.
Proof.
  intros Hz. unfold JS.Number_, JS.String_.
  destruct z as [|p|p]; [done| |lia].
  simpl. rewrite NilZero.usu by apply DecimalPos.Unsigned.to_uint_nonnil.
  unfold Z.of_uint. by rewrite DecimalPos.Unsigned.of_to.
Qed.

Lemma String_nonempty (z : Z) : 0 ≤ z → JS.String_ (JS.Fin z) ≠ "".
Proof.
  intros Hz Heq. destruct z as [|p|p]; [done| |lia].
  simpl in Heq.
  pose proof (NilZero.usu (Pos.to_uint p) (Unsigned.to_uint_nonnil p)) as H.
  rewrite Heq in H. discriminate H.
Qed.

Lemma numeric_free_of_slash (s : string) :
  numeric s = true → JS.free_of "/" s = true.
Proof.
  induction s as [|c s IH]; simpl; [done|].
  intros [Hc Hs]%andb_true_iff. rewrite IH by done. rewrite andb_true_r.
  revert Hc. destruct c as [[] [] [] [] [] [] [] []]; vm_compute; congruence.
Qed.

(** X11. A page result whose URL ends in the decimal digits of a
    non-negative safe integer (at most 2^53 - 1), with or without a final
    slash, gives a light item with that integer as identifier, the sprite
    of that integer as image, and a card that links to the route of that
    integer. *)
Theorem lightItem_of_url (name base : string) (z : Z) :
  0 ≤ z ≤ JS.MAX_SAFE_INTEGER →
  ∀ url,
    url = base +:+ "/" +:+ JS.String_ (JS.Fin z)
    ∨ url = base +:+ "/" +:+ JS.String_ (JS.Fin z) +:+ "/" →
    PokemonListItem.id (lightItem (NamedAPIResource.mk name url)) = JS.Fin z
    ∧ PokemonListItem.image (lightItem (NamedAPIResource.mk name url))
      = sprite (JS.Fin z)
    ∧ PokemonCard_to (lightItem (NamedAPIResource.mk name url))
      = pokemon_route (JS.Fin z).
Proof.
  intros [Hz _] url Hurl.
  assert (Hid : PokemonListItem.id (lightItem (NamedAPIResource.mk name url))
                = JS.Fin z).
  { simpl.
    destruct (trailingSegment_spec base (JS.String_ (JS.Fin z))) as [H1 H2].
    - by apply String_nonempty.
    - apply numeric_free_of_slash, String_integer_numeric.
    - destruct Hurl as [-> | ->]; rewrite ?H1, ?H2; by apply Number_String. }
  split_and!; [done| |].
  - unfold lightItem in *. simpl in *. by rewrite Hid.
  - unfold PokemonCard_to. by rewrite Hid.
Qed.

(** ** Previous and next, composed *)

Lemma DetailView_next_of_prev (items : list Item) (pid q : JS.number) :
  NoDup (DetailView_order items) → is_integer q = true →
  DetailView_prevId items pid = Some q → DetailView_nextId items q = Some pid.
Proof.
  intros Hnodup Hq Heq.
  destruct (DetailView_found items pid) as (pre & post & Horder & Hnin & Hint).
  { left. by rewrite Heq. }
  destruct (DetailView_neighbours items pid pre post Hint Horder Hnin) as [Hp _].
  rewrite Heq in Hp. symmetry in Hp.
  apply last_Some in Hp as [pre' ->].
  rewrite <-(assoc_L (++)) in Horder. simpl in Horder.
  rewrite Horder in Hnodup.
  apply NoDup_app in Hnodup as (_ & Hdisj & _).
  destruct (DetailView_neighbours items q pre' (pid :: post) Hq Horder) as [_ Hn].
  { intros Hin. apply (Hdisj q Hin). apply list_elem_of_here. }
  done.
Qed.

Lemma DetailView_prev_of_next (items : list Item) (pid q : JS.number) :
  NoDup (DetailView_order items) → is_integer q = true →
  DetailView_nextId items pid = Some q → DetailView_prevId items q = Some pid.
Proof.
  intros Hnodup Hq Heq.
  destruct (DetailView_found items pid) as (pre & post & Horder & Hnin & Hint).
  { right. by rewrite Heq. }
  destruct (DetailView_neighbours items pid pre post Hint Horder Hnin) as [_ Hn].
  rewrite Heq in Hn. symmetry in Hn.
  destruct post as [|q' post]; simplify_eq/=.
  assert (Horder' : DetailView_order items = (pre ++ [pid]) ++ q :: post)
    by (by rewrite <-(assoc_L (++))).
  rewrite Horder' in Hnodup.
  apply NoDup_app in Hnodup as (_ & Hdisj & _).
  destruct (DetailView_neighbours items q (pre ++ [pid]) post Hq Horder') as [Hp _].
  { intros Hin. apply (Hdisj q Hin). apply list_elem_of_here. }
  by rewrite Hp, last_snoc.
Qed.

(** X12. In a list without repeated identifiers, previous and next undo
    each other: if the previous of [pid] is the number [q], the next of
    [q] is [pid], and the other way round. *)
Theorem DetailView_prev_next_inverse (items : list Item) (pid q : JS.number) :
  NoDup (DetailView_order items) →
  is_integer q = true →
  (DetailView_prevId items pid = Some q → DetailView_nextId items q = Some pid)
  ∧ (DetailView_nextId items pid = Some q → DetailView_prevId items q = Some pid).
Proof.
  intros Hnodup Hq. split.
  - by apply DetailView_next_of_prev.
  - by apply DetailView_prev_of_next.
Qed.

(** X13. In a list of distinct positive identifiers, a press on Prev that
    navigates leads to the route of the previous identifier; the text of
    that route after ["/pokemon/"] reads back as that identifier, and from
    there a press on Next leads back to the route of the entry it came
    from. *)
Theorem DetailView_prev_then_next (items : list Item) (pid : JS.number)
    (route : string) :
  NoDup (DetailView_order items) →
  Forall (λ n, ∃ z, n = JS.Fin z ∧ 0 < z) (DetailView_order items) →
  DetailView_goPrev items pid = Some route →
  ∃ q,
    DetailView_prevId items pid = Some q
    ∧ route = "/pokemon/" +:+ JS.String_ q
    ∧ DetailView_pid (Some (JS.String_ q)) = q
    ∧ DetailView_goNext items q = Some (pokemon_route pid).
Proof.
  intros Hnodup Hpos Hgo. unfold DetailView_goPrev in Hgo.
  destruct (DetailView_prevId items pid) as [q|] eqn:Hprev; [|done].
  destruct (number_truthy q) eqn:Hq; [|done]. injection Hgo as <-.
  destruct (DetailView_found items pid) as (pre & post & Horder & _ & _).
  { left. by rewrite Hprev. }
  assert (Hpid : ∃ z, pid = JS.Fin z ∧ 0 < z).
  { rewrite Forall_forall in Hpos. apply Hpos. rewrite Horder.
    apply elem_of_app. right. apply list_elem_of_here. }
  destruct Hpid as (z & -> & Hz).
  destruct q as [zq|]; [|done].
  assert (Hzq : 0 < zq).
  { destruct (DetailView_found items (JS.Fin z)) as (pre' & post' & Ho & Hn & Hi).
    { left. by rewrite Hprev. }
    destruct (DetailView_neighbours items (JS.Fin z) pre' post' Hi Ho Hn) as [Hp _].
    rewrite Hprev in Hp. symmetry in Hp. apply last_Some in Hp as [pre'' ->].
    rewrite Forall_forall in Hpos.
    destruct (Hpos (JS.Fin zq)) as (z' & [= ->] & ?); [|done].
    rewrite Ho. apply elem_of_app. left. apply elem_of_app. right.
    apply list_elem_of_here. }
  exists (JS.Fin zq). split_and!; [done|done| |].
  - unfold DetailView_pid. apply Number_String. lia.
  - unfold DetailView_goNext.
    rewrite (DetailView_next_of_prev items (JS.Fin z) (JS.Fin zq)
               Hnodup eq_refl Hprev).
    simpl. by replace (z =? 0) with false by (symmetry; apply Z.eqb_neq; lia).
Qed.

(** X14. The link of a card of the list, for an item whose identifier is
    a non-negative safe integer (at most 2^53 - 1), is ["/pokemon/"]
    followed by its decimal digits; these read back as the identifier, and
    the detail view finds the identifier in the list, at the first item
    that has it. *)
Theorem PokemonCard_to_detail (items : list Item) (p : Item) (z : Z) :
  p ∈ items → PokemonListItem.id p = JS.Fin z →
  0 ≤ z ≤ JS.MAX_SAFE_INTEGER →
  PokemonCard_to p = "/pokemon/" +:+ JS.String_ (JS.Fin z)
  ∧ DetailView_pid (Some (JS.String_ (JS.Fin z))) = PokemonListItem.id p
  ∧ ∃ k p',
      DetailView_index items (PokemonListItem.id p) = Z.of_nat k
      ∧ items !! k = Some p'
      ∧ PokemonListItem.id p' = PokemonListItem.id p
      ∧ ∀ j q, (j < k)%nat → items !! j = Some q →
               PokemonListItem.id q ≠ PokemonListItem.id p.
Proof.
  intros Hp Hid [Hz _]. split_and!.
  - unfold PokemonCard_to, pokemon_route. by rewrite Hid.
  - rewrite Hid. by apply Number_String.
  - assert (Hin : PokemonListItem.id p ∈ DetailView_order items)
      by (by apply (list_elem_of_fmap_2 PokemonListItem.id)).
    apply list_elem_of_split_l in Hin as (pre & post & Horder & Hnin).
    exists (length pre).
    assert (Hk : DetailView_order items !! length pre = Some (PokemonListItem.id p)).
    { rewrite Horder. by rewrite list_lookup_middle. }
    unfold DetailView_order in Hk.
    change (map PokemonListItem.id items) with (PokemonListItem.id <$> items) in Hk.
    rewrite list_lookup_fmap in Hk.
    destruct (items !! length pre) as [p'|] eqn:Hp'; [|done].
    exists p'. injection Hk as Hk. split_and!; [|done|done|].
    + unfold DetailView_index, JS.indexOf.
      rewrite Horder, indexOf_from_first; [lia|by rewrite Hid|done].
    + intros j q Hj Hq Heq. apply Hnin.
      assert (Hj' : DetailView_order items !! j = Some (PokemonListItem.id q)).
      { unfold DetailView_order.
        change (map PokemonListItem.id items) with (PokemonListItem.id <$> items).
        by rewrite list_lookup_fmap, Hq. }
      rewrite Horder, lookup_app_l in Hj' by done.
      rewrite <-Heq. by eapply list_elem_of_lookup_2.
Qed.

(** ** Runs of the worker pool *)

Lemma answer_of_elem (log : list (nat * option PokemonDetail.t)) (k : nat)
    (r : option PokemonDetail.t) :
  answer_of log k = Some r → k ∈ map fst log.
Proof.
  induction log as [|[j r'] log IH]; simpl; [done|].
  destruct (decide (j = k)) as [->|]; [intros _; apply list_elem_of_here|].
  intros H. apply list_elem_of_further. by apply IH.
Qed.

(** In every state of a run, an entry is the light item with the outcome
    of the answer delivered for its index. *)
Lemma reachable_light light0 sched s (k : nat) :
  run (start light0) sched = Some s →
  light s !! k = (λ p, outcome p (answer_of (settled s) k)) <$> light0 !! k.
Proof.
  intros Hrun. destruct (reachable_inv _ _ _ Hrun) as (Hinv & _ & _).
  destruct (light0 !! k) as [p|] eqn:Hp; simpl.
  - by apply (inv_light _ _ _ _ Hinv).
  - apply lookup_ge_None. rewrite (inv_length _ _ _ _ Hinv).
    by apply lookup_ge_None.
Qed.

Lemma getPokemonPage_Some results sched data :
  getPokemonPage (Some results) sched = Some data →
  ∃ s, run (start (buildLight results)) sched = Some s
       ∧ all_returned s = true ∧ data = light s.
Proof.
  unfold getPokemonPage.
  destruct (run (start (buildLight results)) sched) as [s|]; [|done].
  destruct (all_returned s) eqn:Hall; [|done].
  intros [= <-]. by exists s.
Qed.

Lemma getPokemonPage_lookup results sched data (k : nat) :
  getPokemonPage (Some results) sched = Some data →
  data !! k
  = (λ p, outcome p (delivered (buildLight results) sched k))
      <$> buildLight results !! k.
Proof.
  intros (s & Hrun & _ & ->)%getPokemonPage_Some.
  unfold delivered. rewrite Hrun. by apply (reachable_light _ sched).
Qed.

Lemma outcome_id_name p a :
  PokemonListItem.id (outcome p a) = PokemonListItem.id p
  ∧ PokemonListItem.name (outcome p a) = PokemonListItem.name p
  ∧ PokemonListItem.url (outcome p a) = PokemonListItem.url p.
Proof. by destruct a as [[d|]|]. Qed.

(** X15. Whatever the order and the outcome of the detail requests, the
    list that [getPokemonPage] returns after a page request that
    succeeded has one entry per page result, with the identifiers, names
    and URLs of the light list in its order; each entry is the light item
    with the outcome of the answer delivered for its own index; and
    exactly as many answers were delivered as there are page results. *)
Theorem getPokemonPage_result (results : list NamedAPIResource.t)
    (sched : list (nat * option PokemonDetail.t)) (data : list Item) :
  getPokemonPage (Some results) sched = Some data →
  length data = length results
  ∧ length sched = length results
  ∧ map PokemonListItem.id data = map PokemonListItem.id (buildLight results)
  ∧ map PokemonListItem.name data = map PokemonListItem.name (buildLight results)
  ∧ map PokemonListItem.url data = map PokemonListItem.url (buildLight results)
  ∧ ∀ k, data !! k
         = (λ p, outcome p (delivered (buildLight results) sched k))
             <$> buildLight results !! k.
Proof.
  intros Hget.
  pose proof (λ k, getPokemonPage_lookup results sched data k Hget) as Hlook.
  destruct (getPokemonPage_Some _ _ _ Hget) as (s & Hrun & Hall & ->).
  destruct (reachable_inv _ _ _ Hrun) as (Hinv & _ & Hst).
  destruct (all_returned_cursor _ _ _ Hrun Hall) as [Hi Haw].
  pose proof (inv_claimed _ _ _ _ Hinv) as Hcl.
  rewrite Hi, Haw in Hcl. simpl in Hcl. apply Permutation_length in Hcl.
  rewrite length_map, length_seq in Hcl.
  assert (Hlen : length (buildLight results) = length results).
  { unfold buildLight. by rewrite sort_length, length_map. }
  assert (Hmap : ∀ {B} (f : Item → B),
    (∀ p a, f (outcome p a) = f p) →
    map f (light s) = map f (buildLight results)).
  { intros B f Hf. apply list_eq. intros k.
    change (map f (light s)) with (f <$> light s).
    change (map f (buildLight results)) with (f <$> buildLight results).
    rewrite !list_lookup_fmap, Hlook.
    destruct (buildLight results !! k); simpl; [by rewrite Hf|done]. }
  split_and!.
  - by rewrite (inv_length _ _ _ _ Hinv).
  - lia.
  - apply Hmap. intros p a. apply outcome_id_name.
  - apply Hmap. intros p a. apply outcome_id_name.
  - apply Hmap. intros p a. apply outcome_id_name.
  - done.
Qed.

(** X16. The order in which the answers arrive does not matter: two
    complete runs on the same page in which every index received the same
    answer return the same list. *)
Theorem getPokemonPage_order_independent (results : list NamedAPIResource.t)
    (sched1 sched2 : list (nat * option PokemonDetail.t)) (data1 data2 : list Item) :
  getPokemonPage (Some results) sched1 = Some data1 →
  getPokemonPage (Some results) sched2 = Some data2 →
  (∀ k, delivered (buildLight results) sched1 k
        = delivered (buildLight results) sched2 k) →
  data1 = data2.
Proof.
  intros H1 H2 Hsame. apply list_eq. intros k.
  rewrite (getPokemonPage_lookup _ _ _ k H1), (getPokemonPage_lookup _ _ _ k H2).
  by rewrite Hsame.
Qed.

Lemma awaited_by_inj (ws : list worker) : ∀ (w1 w2 k : nat),
  NoDup (ws ≫= awaited_by) →
  ws !! w1 = Some (Awaiting k) → ws !! w2 = Some (Awaiting k) → w1 = w2.
Proof.
  induction ws as [|w ws IH]; intros w1 w2 k Hnodup H1 H2; [done|].
  rewrite bind_cons in Hnodup. apply NoDup_app in Hnodup as (_ & Hdisj & Hrest).
  assert (Hin : ∀ j, ws !! j = Some (Awaiting k) → k ∈ ws ≫= awaited_by).
  { intros j Hj. apply list_elem_of_bind. exists (Awaiting k).
    split; [apply list_elem_of_here|by eapply list_elem_of_lookup_2]. }
  destruct w1 as [|w1], w2 as [|w2]; simpl in *.
  - done.
  - injection H1 as ->. destruct (Hdisj k); [apply list_elem_of_here|by eapply Hin].
  - injection H2 as ->. destruct (Hdisj k); [apply list_elem_of_here|by eapply Hin].
  - f_equal. by eapply IH.
Qed.

(** X17. In every state of every run no index is handled twice: the
    indices in flight and the indices already answered are pairwise
    different, two workers never wait for the same index, and an index in
    flight lies below the cursor and has no answer yet. *)
Theorem pool_no_double_claim (light0 : list Item)
    (sched : list (nat * option PokemonDetail.t)) (s : pool) :
  run (start light0) sched = Some s →
  NoDup (awaited s ++ map fst (settled s))
  ∧ (∀ w1 w2 k, workers s !! w1 = Some (Awaiting k) →
                workers s !! w2 = Some (Awaiting k) → w1 = w2)
  ∧ (∀ w k, workers s !! w = Some (Awaiting k) →
            (k < i s)%nat ∧ answer_of (settled s) k = None).
Proof.
  intros Hrun. destruct (reachable_inv _ _ _ Hrun) as (Hinv & _ & _).
  assert (Hnodup : NoDup (awaited s ++ map fst (settled s))).
  { rewrite (inv_claimed _ _ _ _ Hinv). apply NoDup_seq. }
  split_and!; [done| |].
  - intros w1 w2 k. apply awaited_by_inj.
    by apply NoDup_app in Hnodup as (? & _ & _).
  - intros w k Hw. pose proof (awaited_elem _ _ _ Hw) as Hk. split.
    + assert (Hin : k ∈ seq 0 (i s)).
      { rewrite <-(inv_claimed _ _ _ _ Hinv). apply elem_of_app. by left. }
      apply elem_of_seq in Hin. lia.
    + apply answer_of_None. apply NoDup_app in Hnodup as (_ & Hdisj & _).
      by apply Hdisj.
Qed.

(** X18. A run on [n] entries takes at most [n] answers, and the promise
    of [Promise.all] is fulfilled exactly when [n] answers have arrived;
    until then some worker is waiting and can take the next answer. *)
Theorem pool_run_length (light0 : list Item)
    (sched : list (nat * option PokemonDetail.t)) (s : pool) :
  run (start light0) sched = Some s →
  (length sched ≤ length light0)%nat
  ∧ (all_returned s = true ↔ length sched = length light0)
  ∧ (all_returned s = false →
     ∃ w idx, workers s !! w = Some (Awaiting idx)
              ∧ ∀ r, is_Some (run (start light0) (sched ++ [(w, r)]))).
Proof.
  intros Hrun. destruct (reachable_inv _ _ _ Hrun) as (Hinv & _ & Hst).
  pose proof (inv_claimed _ _ _ _ Hinv) as Hcl.
  apply Permutation_length in Hcl.
  rewrite length_app, length_map, length_seq in Hcl.
  pose proof (inv_cursor _ _ _ _ Hinv) as Hcur.
  split_and!.
  - lia.
  - split.
    + intros Hall. destruct (all_returned_cursor _ _ _ Hrun Hall) as [Hi Haw].
      rewrite Haw in Hcl. simpl in Hcl. lia.
    + intros Hlen. apply all_returned_awaited, length_zero_iff_nil. lia.
  - intros Hnot.
    destruct (list_find (λ w, w ≠ Returned) (workers s)) as [[w wk]|] eqn:Hfind.
    + apply list_find_Some in Hfind as (Hw & Hwk & _).
      destruct wk as [idx|]; [|done]. exists w, idx. split; [done|].
      intros r. destruct (resume_is_Some s w idx r Hw) as [s' Hres].
      exists s'. clear -Hrun Hres. revert Hrun.
      generalize (start light0). induction sched as [|[w' r'] sched IH];
        intros s0 Hrun; simpl in *.
      * injection Hrun as ->. by rewrite Hres.
      * destruct (resume s0 w' r'); [by apply IH|done].
    + apply list_find_None in Hfind.
      assert (all_returned s = true); [|congruence].
      apply all_returned_spec. eapply Forall_impl; [exact Hfind|].
      simpl. intros w Hw. by destruct (decide (w = Returned)).
Qed.

(** ** The effect of the list view *)

Lemma every_unenriched_spec (data : list Item) :
  every_unenriched data = true
  ↔ ∀ p, p ∈ data → PokemonListItem.base_experience p = -1.
Proof.
  unfold every_unenriched. rewrite forallb_forall.
  split; intros H p Hp.
  - apply Z.eqb_eq, H. by apply list_elem_of_In.
  - apply Z.eqb_eq, H. by apply list_elem_of_In.
Qed.

(** The entries of a returned list are all unenriched exactly when no
    delivered detail carries a base experience other than -1. *)
Lemma every_unenriched_delivered results sched data :
  getPokemonPage (Some results) sched = Some data →
  every_unenriched data = true
  ↔ ∀ k d, delivered (buildLight results) sched k = Some (Some d) →
           PokemonDetail.base_experience d = -1.
Proof.
  intros Hget. rewrite every_unenriched_spec.
  pose proof (λ k, getPokemonPage_lookup results sched data k Hget) as Hlook.
  destruct (getPokemonPage_Some _ _ _ Hget) as (s & Hrun & Hall & ->).
  destruct (reachable_inv _ _ _ Hrun) as (Hinv & _ & _).
  destruct (all_returned_cursor _ _ _ Hrun Hall) as [Hi Haw].
  pose proof (inv_claimed _ _ _ _ Hinv) as Hcl.
  rewrite Hi, Haw in Hcl. simpl in Hcl.
  split.
  - intros Hdata k d Hk.
    assert (Hlt : (k < length (buildLight results))%nat).
    { unfold delivered in Hk. rewrite Hrun in Hk.
      apply answer_of_elem in Hk. rewrite Hcl in Hk.
      apply elem_of_seq in Hk. lia. }
    destruct (lookup_lt_is_Some_2 _ _ Hlt) as [p0 Hp0].
    specialize (Hlook k). rewrite Hp0, Hk in Hlook. simpl in Hlook.
    apply list_elem_of_lookup_2, Hdata in Hlook. done.
  - intros Hdel p Hp. apply list_elem_of_lookup in Hp as [k Hk].
    rewrite Hlook in Hk.
    destruct (buildLight results !! k) as [p0|] eqn:Hp0; simplify_eq/=.
    destruct (lightItem_sentinel results p0) as (Hb & _).
    { by eapply list_elem_of_lookup_2. }
    destruct (delivered (buildLight results) sched k) as [[d|]|] eqn:Hd;
      simpl; [by apply (Hdel k)|done|done].
Qed.

(** X19. After the first load of the list view, the notice of the limited
    mode is shown exactly when the page request succeeded and no detail
    that arrived carries a base experience other than -1 (so also when
    every detail request failed, and for an empty page); it is never
    shown with the fallback list, and the failure message is never set. *)
Theorem ListView_effect_notice (page : option (list NamedAPIResource.t))
    (sched : list (nat * option PokemonDetail.t)) (data : list Item)
    (e : ListView_error) :
  ListView_effect [] no_error page sched = Some (data, e) →
  e ≠ failed_to_load
  ∧ (page = None → data = mock ∧ e = no_error)
  ∧ (e = limited_mode
     ↔ ∃ results,
         page = Some results
         ∧ ∀ k d, delivered (buildLight results) sched k = Some (Some d) →
                  PokemonDetail.base_experience d = -1).
Proof.
  unfold ListView_effect. simpl.
  destruct (getPokemonPage page sched) as [data'|] eqn:Hget; [|done].
  intros [= -> <-].
  destruct page as [results|].
  - pose proof (every_unenriched_delivered _ _ _ Hget) as Hiff.
    destruct (every_unenriched data) eqn:E.
    + split_and!; [done|done|]. split; [|done].
      intros _. exists results. split; [done|]. by apply Hiff.
    + split_and!; [done|done|]. split; [done|].
      intros (results' & [= <-] & Hdel). apply Hiff in Hdel. congruence.
  - injection Hget as <-. split_and!; [done|done|].
    split; [done|]. by intros (results & ? & _).
Qed.

(** X20. The list view loads only into an empty list: a list that holds
    items is left as it is.  After a load the list is empty only if the
    page request succeeded with no results; otherwise a later run of the
    effect, whatever the network does, changes nothing. *)
Theorem ListView_effect_once (items : list Item) (error : ListView_error)
    (page : option (list NamedAPIResource.t))
    (sched : list (nat * option PokemonDetail.t)) :
  (items ≠ [] → ListView_effect items error page sched = Some (items, error))
  ∧ ∀ data e,
      ListView_effect [] error page sched = Some (data, e) →
      (data = [] ↔ page = Some [])
      ∧ (data ≠ [] →
         ∀ page' sched', ListView_effect data e page' sched' = Some (data, e)).
Proof.
  assert (Hkeep : ∀ l err pg sc,
    l ≠ [] → ListView_effect l err pg sc = Some (l, err)).
  { intros [|p l] err pg sc Hne; [done|]. done. }
  split; [apply Hkeep|].
  intros data e. unfold ListView_effect. simpl.
  destruct (getPokemonPage page sched) as [data'|] eqn:Hget; [|done].
  intros [= -> <-]. split; [|intros; by apply Hkeep].
  destruct page as [results|].
  - destruct (getPokemonPage_Some _ _ _ Hget) as (s & Hrun & _ & ->).
    destruct (reachable_inv _ _ _ Hrun) as (Hinv & _ & _).
    pose proof (inv_length _ _ _ _ Hinv) as Hlen.
    unfold buildLight in Hlen. rewrite sort_length, length_map in Hlen.
    split.
    + intros Hnil. rewrite Hnil in Hlen. by destruct results.
    + intros [= ->]. by destruct (light s).
  - injection Hget as <-. done.
Qed.

(** ** Instances of the further theorems *)

Lemma sample_orderable (key : SortKey) : Forall (orderable key) sample.
Proof. destruct key; repeat constructor. Qed.




Lemma sample_ids_NoDup : NoDup (map (λ p, prop p key_id) sample).
Proof. refine (bool_decide_unpack _ _). by vm_compute. Qed.


Lemma poison_not_selected : "poison" ∉ ["grass"].
Proof. refine (bool_decide_unpack _ _). by vm_compute. Qed.

Lemma GalleryView_filtered_narrow_witness :
  ("poison" ∉ ["grass"])
  ∧ GalleryView_filtered mock (GalleryFilters_toggle ["grass"] "poison")
    = List.filter (fun p => includes_label (PokemonListItem.types p) "poison")
        (GalleryView_filtered mock ["grass"])
  ∧ GalleryView_filtered mock (GalleryFilters_toggle ["grass"] "poison")
    `sublist_of` GalleryView_filtered mock ["grass"].
Proof.
  split; [exact poison_not_selected|].
  apply (GalleryView_filtered_narrow mock ["grass"] "poison" poison_not_selected).
Defined.

Lemma lightItem_of_url_witness :
  0 ≤ 25 ≤ JS.MAX_SAFE_INTEGER
  ∧ PokemonListItem.id
      (lightItem (NamedAPIResource.mk "pikachu"
                    ("https://pokeapi.co/api/v2/pokemon" +:+ "/"
                     +:+ JS.String_ (JS.Fin 25) +:+ "/")))
    = JS.Fin 25.
Proof.
  assert (H : 0 ≤ 25 ≤ JS.MAX_SAFE_INTEGER) by (unfold JS.MAX_SAFE_INTEGER; lia).
  split; [exact H|].
  apply (lightItem_of_url "pikachu" "https://pokeapi.co/api/v2/pokemon" 25 H).
  by right.
Defined.

Lemma sample_order_NoDup : NoDup (DetailView_order sample).
Proof. refine (bool_decide_unpack _ _). by vm_compute. Qed.

Lemma DetailView_prev_next_inverse_witness :
  NoDup (DetailView_order sample)
  ∧ is_integer (JS.Fin 1) = true
  ∧ (DetailView_prevId sample (JS.Fin 2) = Some (JS.Fin 1) →
     DetailView_nextId sample (JS.Fin 1) = Some (JS.Fin 2))
  ∧ (DetailView_nextId sample (JS.Fin 2) = Some (JS.Fin 1) →
     DetailView_prevId sample (JS.Fin 1) = Some (JS.Fin 2)).
Proof.
  split_and!; [exact sample_order_NoDup|reflexivity|..];
    apply (DetailView_prev_next_inverse sample (JS.Fin 2) (JS.Fin 1)
             sample_order_NoDup eq_refl).
Defined.

Lemma sample_order_positive :
  Forall (λ n, ∃ z, n = JS.Fin z ∧ 0 < z) (DetailView_order sample).
Proof. repeat constructor; eexists; (split; [reflexivity|lia]). Qed.

Lemma DetailView_prev_then_next_witness :
  NoDup (DetailView_order sample)
  ∧ Forall (λ n, ∃ z, n = JS.Fin z ∧ 0 < z) (DetailView_order sample)
  ∧ DetailView_goPrev sample (JS.Fin 2) = Some "/pokemon/1"
  ∧ ∃ q,
      DetailView_prevId sample (JS.Fin 2) = Some q
      ∧ "/pokemon/1" = "/pokemon/" +:+ JS.String_ q
      ∧ DetailView_pid (Some (JS.String_ q)) = q
      ∧ DetailView_goNext sample q = Some (pokemon_route (JS.Fin 2)).
Proof.
  assert (H : DetailView_goPrev sample (JS.Fin 2) = Some "/pokemon/1")
    by reflexivity.
  split_and!; [exact sample_order_NoDup|exact sample_order_positive|exact H|].
  apply (DetailView_prev_then_next sample (JS.Fin 2) "/pokemon/1"
           sample_order_NoDup sample_order_positive H).
Defined.

Lemma PokemonCard_to_detail_witness :
  PokemonListItem.mk (JS.Fin 2) "ivysaur" "" "" ["grass"] 142 10 130 ∈ sample
  ∧ 0 ≤ 2 ≤ JS.MAX_SAFE_INTEGER
  ∧ PokemonCard_to
      (PokemonListItem.mk (JS.Fin 2) "ivysaur" "" "" ["grass"] 142 10 130)
    = "/pokemon/" +:+ JS.String_ (JS.Fin 2).
Proof.
  assert (Hin : PokemonListItem.mk (JS.Fin 2) "ivysaur" "" "" ["grass"] 142 10 130
                ∈ sample) by (refine (bool_decide_unpack _ _); by vm_compute).
  assert (Hz : 0 ≤ 2 ≤ JS.MAX_SAFE_INTEGER) by (unfold JS.MAX_SAFE_INTEGER; lia).
  split; [exact Hin|]. split; [exact Hz|].
  apply (PokemonCard_to_detail sample _ 2 Hin eq_refl Hz).
Defined.

Lemma getPokemonPage_example :
  getPokemonPage (Some page_example) sched_example = Some data_example.
Proof. by vm_compute. Qed.

Lemma getPokemonPage_example' :
  getPokemonPage (Some page_example) sched_example' = Some data_example.
Proof. by vm_compute. Qed.

Lemma getPokemonPage_result_witness :
  getPokemonPage (Some page_example) sched_example = Some data_example
  ∧ length data_example = length page_example
  ∧ map PokemonListItem.id data_example
    = map PokemonListItem.id (buildLight page_example).
Proof.
  split; [exact getPokemonPage_example|].
  destruct (getPokemonPage_result page_example sched_example data_example
              getPokemonPage_example) as (H1 & _ & H2 & _).
  by split.
Defined.

Lemma delivered_example (k : nat) :
  delivered (buildLight page_example) sched_example k
  = delivered (buildLight page_example) sched_example' k.
Proof. destruct k as [|[|k]]; by vm_compute. Qed.

Lemma getPokemonPage_order_independent_witness :
  getPokemonPage (Some page_example) sched_example = Some data_example
  ∧ getPokemonPage (Some page_example) sched_example' = Some data_example
  ∧ (∀ k, delivered (buildLight page_example) sched_example k
          = delivered (buildLight page_example) sched_example' k)
  ∧ data_example = data_example.
Proof.
  split_and!; [exact getPokemonPage_example|exact getPokemonPage_example'
              |exact delivered_example|].
  apply (getPokemonPage_order_independent page_example sched_example sched_example'
           data_example data_example getPokemonPage_example
           getPokemonPage_example' delivered_example).
Defined.

Lemma run_example :
  run (start (buildLight page_example)) [(0%nat, Some detail_example)]
  = Some pool_example.
Proof. by vm_compute. Qed.

Lemma pool_no_double_claim_witness :
  run (start (buildLight page_example)) [(0%nat, Some detail_example)]
  = Some pool_example
  ∧ NoDup (awaited pool_example ++ map fst (settled pool_example)).
Proof.
  split; [exact run_example|].
  apply (pool_no_double_claim (buildLight page_example)
           [(0%nat, Some detail_example)] pool_example run_example).
Defined.

Lemma pool_run_length_witness :
  run (start (buildLight page_example)) [(0%nat, Some detail_example)]
  = Some pool_example
  ∧ (all_returned pool_example = true
     ↔ length [(0%nat, Some detail_example)] = length (buildLight page_example)).
Proof.
  split; [exact run_example|].
  apply (pool_run_length (buildLight page_example)
           [(0%nat, Some detail_example)] pool_example run_example).
Defined.

Lemma ListView_effect_example :
  ListView_effect [] no_error (Some page_example) sched_example
  = Some (data_example, no_error).
Proof. by vm_compute. Qed.

Lemma ListView_effect_notice_witness :
  ListView_effect [] no_error (Some page_example) sched_example
  = Some (data_example, no_error)
  ∧ no_error ≠ failed_to_load.
Proof.
  split; [exact ListView_effect_example|].
  apply (ListView_effect_notice (Some page_example) sched_example data_example
           no_error ListView_effect_example).
Defined.
